(** * safe_cli/prompt_parser.py: command parser and error translation

    A shallow embedding of [safe_cli/prompt_parser.py]: the address validator
    [check_ethereum_address], the decorator [safe_exception] and the parser
    built by [get_prompt_parser], together with the part of Python's
    [argparse] (as of CPython 3.11) that the parser configuration exercises.

    Python [str] values are modelled by [string], read as sequences of code
    points below 256.  Python [int] values are modelled by [Z]; the limit that
    the interpreter may put on the length of conversions between [int] and
    [str] is, like its other resource limits, outside the model. *)

From Stdlib Require Import ZArith String Ascii DecimalString DecimalPos Lia Bool.
From stdpp Require Import base option list strings gmap.

Local Open Scope string_scope.
Local Open Scope Z_scope.
Local Open Scope list_scope.

(** The functions that [get_prompt_parser] defines, in source order.  They are
    the function objects that [set_defaults(func=...)] stores in a namespace. *)
Inductive handler : Type :=
| show_cli_owners
| load_cli_owners
| unload_cli_owners
| add_owner
| remove_owner
| change_fallback_handler
| change_master_copy
| change_threshold
| send_ether
| send_erc20
| send_erc721
| get_threshold
| get_nonce
| get_owners
| enable_module
| disable_module
| update_version
| get_info
| get_refresh
| get_balances
| get_history.

(** ** Python objects, exceptions and effects *)

Module Py.

(** Objects carried in the [args] tuple of an exception: the operator's
    failures carry an address or a message ([str]), a count or a balance
    ([int]), or nothing. *)
Inductive atom : Type :=
| ANone
| AStr (s : string)
| AInt (n : Z).

(** Objects stored in a [Namespace] and passed to the operator: [None], a
    [str], an [int], a list of such, or one of the functions that
    [get_prompt_parser] defines. *)
#[warnings="-register-all"]
Inductive value : Type :=
| VNone
| VStr (s : string)
| VInt (n : Z)
| VList (l : list value)
| VFunction (f : handler).

(** [str(x)], which is what an f-string replacement field [{x}] renders. *)
Definition str (x : atom) : string :=
  match x with
  | ANone => "None"
  | AStr s => s
  | AInt n => NilZero.string_of_int (Z.to_int n)
  end.

(** Exception classes: the thirteen classes imported by the module, the
    builtin classes that the modelled code itself raises, and
    [OtherException] for every other class, by name. *)
Inductive exception_class : Type :=
| BaseAPIException
| NotEnoughSignatures
| SenderRequiredException
| ExistingOwnerException
| NonExistingOwnerException
| ThresholdLimitException
| SameFallbackHandlerException
| FallbackHandlerNotSupportedException
| SameMasterCopyException
| InvalidMasterCopyException
| SafeAlreadyUpdatedException
| NotEnoughEtherToSend
| NotEnoughTokenToSend
| ArgumentTypeError
| IndexError
| TypeError
| AttributeError
| ValueError
| OtherException (name : string).

#[global] Instance exception_class_eq_dec : EqDecision exception_class.
Proof. solve_decision. Defined.

(** An exception instance: its class and its [args] tuple. *)
Record exn : Type := Exn { exc_class : exception_class; exc_args : list atom }.

(** Modelled from the spec: the class declarations of [safe_operator.py] and
    [api/base_api.py] are not part of this file.  The failure kinds are
    "disjoint by construction (each external failure surfaces as exactly one
    concrete kind)": no listed class derives from another, so an [except C]
    clause matches exactly the instances whose class is [C]. *)
Definition isinstance (e : exn) (C : exception_class) : bool :=
  bool_decide (exc_class e = C).

(** Observable events, in program order: [print_formatted_text(HTML(markup))],
    where the parsing and rendering of the markup by prompt_toolkit is outside
    the model, and a call of a method of the operator. *)
Inductive event : Type :=
| PrintFormattedText (markup : string)
| OperatorCall (method : string) (arguments : list value).

(** Outcome of evaluating a call. *)
Inductive result (A : Type) : Type :=
| Returned (a : A)
| Raised (e : exn).
Arguments Returned {A} a.
Arguments Raised {A} e.

(** Computations: the events emitted so far and the outcome. *)
Definition Run (A : Type) : Type := list event * result A.

Definition ret {A} (a : A) : Run A := ([], Returned a).
Definition raise {A} (e : exn) : Run A := ([], Raised e).
Definition emit (ev : event) : Run unit := ([ev], Returned tt).

Definition bind {A B} (m : Run A) (k : A -> Run B) : Run B :=
  match m with
  | (evs, Returned a) => let '(evs', r) := k a in (evs ++ evs', r)
  | (evs, Raised e) => (evs, Raised e)
  end.

(** [try: m except ...: h e]: a handler chosen by [h] runs after the events
    of [m]; [h e = None] means that no clause matches and [e] propagates. *)
Definition try_except {A} (m : Run A) (h : exn -> option (Run A)) : Run A :=
  match m with
  | (evs, Returned a) => (evs, Returned a)
  | (evs, Raised e) =>
      match h e with
      | Some handler => let '(evs', r) := handler in (evs ++ evs', r)
      | None => (evs, Raised e)
      end
  end.

End Py.

Import Py.

Notation "x <- m ;; k" := (Py.bind m (fun x => k))
  (at level 100, m at next level, right associativity).
Notation "m ;;; k" := (Py.bind m (fun _ => k))
  (at level 100, right associativity).

(** ** The error translator: [safe_exception] *)

(** [e.args[0]]: indexing an empty tuple raises [IndexError]. *)
Definition args_0 (e : exn) : Run atom :=
  match exc_args e with
  | a :: _ => ret a
  | [] => raise (Exn IndexError [AStr "tuple index out of range"])
  end.

Definition print_formatted_text_HTML (markup : string) : Run unit :=
  emit (PrintFormattedText markup).

(** The [except] clauses of [wrapper], in source order: the classes named by
    the clause and its body. *)
Definition except_clauses : list (list exception_class * (exn -> Run unit)) :=
  [ ([BaseAPIException], fun e =>
       match exc_args e with
       | [] => ret tt
       | _ :: _ =>
           a <- args_0 e ;;
           print_formatted_text_HTML ("<b><ansired>" +:+ str a +:+ "</ansired></b>")
       end);
    ([NotEnoughSignatures], fun e =>
       a <- args_0 e ;;
       print_formatted_text_HTML
         ("<ansired>Cannot find enough owners to sign. " +:+ str a +:+ " missing</ansired>"));
    ([SenderRequiredException], fun _ =>
       print_formatted_text_HTML "<ansired>Please load a default sender</ansired>");
    ([ExistingOwnerException], fun e =>
       a <- args_0 e ;;
       print_formatted_text_HTML
         ("<ansired>Owner " +:+ str a +:+ " is already an owner of the Safe" +:+ "</ansired>"));
    ([NonExistingOwnerException], fun e =>
       a <- args_0 e ;;
       print_formatted_text_HTML
         ("<ansired>Owner " +:+ str a +:+ " is not an owner of the Safe" +:+ "</ansired>"));
    ([ThresholdLimitException], fun _ =>
       print_formatted_text_HTML
         ("<ansired>Having less owners than threshold is not allowed" +:+ "</ansired>"));
    ([SameFallbackHandlerException], fun e =>
       a <- args_0 e ;;
       print_formatted_text_HTML
         ("<ansired>Fallback handler " +:+ str a +:+ " is the current one</ansired>"));
    ([FallbackHandlerNotSupportedException], fun _ =>
       print_formatted_text_HTML
         ("<ansired>Fallback handler is not supported for your Safe, "
          +:+ "you need to <b>update</b> first</ansired>"));
    ([SameMasterCopyException], fun e =>
       a <- args_0 e ;;
       print_formatted_text_HTML
         ("<ansired>Master Copy " +:+ str a +:+ " is the current one</ansired>"));
    ([InvalidMasterCopyException], fun e =>
       a <- args_0 e ;;
       print_formatted_text_HTML
         ("<ansired>Master Copy " +:+ str a +:+ " is not valid</ansired>"));
    ([SafeAlreadyUpdatedException], fun _ =>
       print_formatted_text_HTML "<ansired>Safe is already updated</ansired>");
    ([NotEnoughEtherToSend; NotEnoughTokenToSend], fun e =>
       a <- args_0 e ;;
       print_formatted_text_HTML
         ("<ansired>Cannot find enough to send. Current balance is " +:+ str a
          +:+ "</ansired>")) ].

(** The first clause, in order, that names a class of which [e] is an
    instance. *)
Fixpoint select_clause (clauses : list (list exception_class * (exn -> Run unit)))
    (e : exn) : option (Run unit) :=
  match clauses with
  | [] => None
  | (classes, body) :: rest =>
      if existsb (isinstance e) classes then Some (body e)
      else select_clause rest e
  end.

(** [safe_exception(function)] is [wrapper]: it returns what [function]
    returns; after a clause body has run to its end, control falls off the end
    of [wrapper], which returns [None]. *)
Definition safe_exception {A} (function : A -> Run value) : A -> Run value :=
  fun args =>
    try_except (function args)
      (fun e => (fun body => body ;;; ret VNone) <$> select_clause except_clauses e).

(** ** The builtin [int] on a [str] argument *)

Module builtins.

Definition is_digit (c : ascii) : bool :=
  (48 <=? Z.of_N (N_of_ascii c)) && (Z.of_N (N_of_ascii c) <=? 57).

Definition digit_value (c : ascii) : Z := Z.of_N (N_of_ascii c) - 48.

(** White space skipped by [int]: tab, line feed, vertical tab, form feed,
    carriage return, space, and the two code points between 128 and 255 that
    are Unicode white space (next line, no-break space). *)
Definition is_int_space (c : ascii) : bool :=
  bool_decide (Z.of_N (N_of_ascii c) ∈ [9; 10; 11; 12; 13; 32; 133; 160]).

Fixpoint skip_space (s : string) : string :=
  match s with
  | String c s' => if is_int_space c then skip_space s' else s
  | EmptyString => s
  end.

(** Digits after the first one: single underscores may separate digits; the
    numeral ends at the end of the string or at trailing white space.
    [acc] is the value of the digits read so far. *)
Fixpoint more_digits (acc : Z) (s : string) : option Z :=
  match s with
  | EmptyString => Some acc
  | String c s' =>
      if is_digit c then more_digits (10 * acc + digit_value c) s'
      else if Ascii.eqb c "_" then
        match s' with
        | String d s'' =>
            if is_digit d then more_digits (10 * acc + digit_value d) s'' else None
        | EmptyString => None
        end
      else if is_int_space c then
        match skip_space s' with EmptyString => Some acc | _ => None end
      else None
  end.

Definition unsigned_digits (s : string) : option Z :=
  match s with
  | String c s' => if is_digit c then more_digits (digit_value c) s' else None
  | EmptyString => None
  end.

(** [int(s)] in base 10: [None] stands for [ValueError]. *)
Definition int (s : string) : option Z :=
  match skip_space s with
  | String "+" s' => unsigned_digits s'
  | String "-" s' => Z.opp <$> unsigned_digits s'
  | s' => unsigned_digits s'
  end.

End builtins.

(** ** [argparse]: the parser machinery used by [get_prompt_parser]

    Every parser is created with the default [add_help=True], so its only
    option strings are [-h] and [--help] of the help action; the prefix
    character is [-]; positional arguments have [nargs=None] or [nargs='+'];
    the top-level parser has one positional action, the sub-parsers action
    (nargs [PARSER], not required). *)

Module argparse.

(** [vars(namespace)]. *)
Abbreviation Namespace := (gmap string value).

(** The message of a usage error, before formatting:
    - [invalid_choice]: "argument {...}: invalid choice: VALUE (choose from ...)",
      for a command name that is not registered;
    - [type_error]: "argument DEST: " and the text of the [ArgumentTypeError]
      that the type callable raised with these [args];
    - [invalid_value]: "argument DEST: invalid TYPE_NAME value: VALUE", for a
      [TypeError] or [ValueError] of the type callable;
    - [ignored_explicit_argument]: "argument -h/--help: ignored explicit
      argument EXPLICIT_ARG";
    - [required_arguments]: "the following arguments are required: NAMES";
    - [unrecognized_arguments]: "unrecognized arguments: ARGV". *)
Inductive error_message : Type :=
| invalid_choice (value : string)
| type_error (dest : string) (args : list atom)
| invalid_value (dest : string) (type_name : string) (value : string)
| ignored_explicit_argument (explicit_arg : string)
| required_arguments (names : list string)
| unrecognized_arguments (argv : list string).

(** How a call into the parser ends:
    - [Ok]: it returns;
    - [Error]: [parser.error(message)], which writes the usage and the message
      to stderr and raises [SystemExit(2)]; every [ArgumentError] ends here;
    - [Help]: [parser.print_help()] on stdout, then [parser.exit()], which
      raises [SystemExit(0)];
    - [Crash]: an exception that [argparse] does not catch.
    [parser] is [None] for the top-level parser and [Some name] for the
    sub-parser of command [name]. *)
Inductive outcome (A : Type) : Type :=
| Ok (a : A)
| Error (parser : option string) (message : error_message)
| Help (parser : option string)
| Crash (e : exn).
Arguments Ok {A} a.
Arguments Error {A} parser message.
Arguments Help {A} parser.
Arguments Crash {A} e.

Definition obind {A B} (m : outcome A) (k : A -> outcome B) : outcome B :=
  match m with
  | Ok a => k a
  | Error p msg => Error p msg
  | Help p => Help p
  | Crash e => Crash e
  end.

(** *** Option strings *)

Definition option_strings : list string := ["-h"; "--help"].

(** [(action, option_string, explicit_arg)] of [_parse_optional]; the action
    is the help action when the option string is known and [None] otherwise. *)
Inductive option_tuple : Type :=
| known_option (option_string : string) (explicit_arg : option string)
| unknown_option (arg_string : string).

(** [s.split(c, 1)] when [c] occurs in [s]. *)
Fixpoint split_once (c : ascii) (s : string) : option (string * string) :=
  match s with
  | EmptyString => None
  | String d s' =>
      if Ascii.eqb c d then Some (EmptyString, s')
      else (fun '(a, b) => (String d a, b)) <$> split_once c s'
  end.

Fixpoint all_digits (s : string) : bool :=
  match s with
  | EmptyString => true
  | String c s' => builtins.is_digit c && all_digits s'
  end.

Fixpoint drop_last_newline (s : string) : string :=
  match s with
  | String c EmptyString => if Ascii.eqb c "010" then EmptyString else s
  | String c s' => String c (drop_last_newline s')
  | EmptyString => EmptyString
  end.

(** [_negative_number_matcher]: [^-\d+$|^-\d*\.\d+$]; [$] also matches just
    before a final line feed. *)
Definition negative_number (arg_string : string) : bool :=
  let body s :=
    match s with
    | String "-" t =>
        (negb (bool_decide (t = "")) && all_digits t)
        || match split_once "." t with
           | Some (a, b) => all_digits a && negb (bool_decide (b = "")) && all_digits b
           | None => false
           end
    | _ => false
    end in
  body arg_string || body (drop_last_newline arg_string).

Definition second_is_prefix_char (s : string) : bool :=
  match s with
  | String _ (String "-" _) => true
  | _ => false
  end.

(** [_get_option_tuples], for an argument of length at least two that starts
    with [-]: abbreviations of long options, and short options with an
    attached argument. *)
Definition get_option_tuples (arg_string : string) : list option_tuple :=
  if second_is_prefix_char arg_string then
    let '(option_prefix, explicit_arg) :=
      match split_once "=" arg_string with
      | Some (p, e) => (p, Some e)
      | None => (arg_string, None)
      end in
    omap (fun option_string =>
            if String.prefix option_prefix option_string
            then Some (known_option option_string explicit_arg) else None)
         option_strings
  else
    let short_option_prefix := String.substring 0 2 arg_string in
    let short_explicit_arg :=
      String.substring 2 (String.length arg_string - 2) arg_string in
    omap (fun option_string =>
            if bool_decide (option_string = short_option_prefix)
            then Some (known_option option_string (Some short_explicit_arg))
            else if String.prefix arg_string option_string
            then Some (known_option option_string None) else None)
         option_strings.

(** [_parse_optional]: [None] when the argument is a positional.  With one
    action behind both option strings at most one tuple is found (see
    [get_option_tuples_unambiguous]), so the "ambiguous option" error of the
    library cannot arise. *)
Definition parse_optional (arg_string : string) : option option_tuple :=
  match arg_string with
  | EmptyString => None
  | String c _ =>
      if negb (Ascii.eqb c "-") then None
      else if bool_decide (arg_string ∈ option_strings)
      then Some (known_option arg_string None)
      else if (String.length arg_string =? 1)%nat then None
      else
        let with_explicit_arg :=
          match split_once "=" arg_string with
          | Some (option_string, explicit_arg) =>
              if bool_decide (option_string ∈ option_strings)
              then Some (known_option option_string (Some explicit_arg))
              else None
          | None => None
          end in
        match with_explicit_arg with
        | Some t => Some t
        | None =>
            match get_option_tuples arg_string with
            | t :: _ => Some t
            | [] =>
                if negative_number arg_string then None
                else if bool_decide (is_Some (split_once " " arg_string)) then None
                else Some (unknown_option arg_string)
            end
        end
  end.

(** *** The pattern of the argument strings *)

(** One character of [arg_strings_pattern]: [A] for a positional, [O] for an
    option string (with its tuple) and [-] for the first [--]. *)
Inductive pattern_char : Type :=
| pA
| pO (t : option_tuple)
| pDash.

Definition is_pO (c : pattern_char) : bool :=
  match c with pO _ => true | _ => false end.
Definition is_pDash (c : pattern_char) : bool :=
  match c with pDash => true | _ => false end.

(** Each argument string with its pattern character: everything after the
    first [--] is a positional. *)
Fixpoint classify (arg_strings : list string) : list (string * pattern_char) :=
  match arg_strings with
  | [] => []
  | arg_string :: rest =>
      if bool_decide (arg_string = "--")
      then (arg_string, pDash) :: map (fun a => (a, pA)) rest
      else (arg_string,
            match parse_optional arg_string with
            | None => pA
            | Some t => pO t
            end) :: classify rest
  end.

(** [nargs] of a positional action, which fixes its pattern.  Every pattern
    is a run of dashes and one [A], followed for [None] by a run of dashes,
    for ['+'] by a run of [A] and dashes, and for the sub-parsers action
    ([PARSER]) by a run of any characters. *)
Inductive nargs_kind : Type :=
| nargs_None
| nargs_plus
| nargs_PARSER.

(** The starred character class that ends the pattern of [n]. *)
Definition in_tail_class (n : nargs_kind) (c : pattern_char) : bool :=
  match n, c with
  | nargs_None, pDash => true
  | nargs_plus, (pA | pDash) => true
  | nargs_PARSER, _ => true
  | _, _ => false
  end.

Fixpoint span_length {A} (f : A -> bool) (l : list A) : nat :=
  match l with
  | x :: l' => if f x then S (span_length f l') else O
  | [] => O
  end.

(** [re.match] of the concatenated group patterns against the pattern string:
    the lengths of the groups, with the greedy, backtracking choice of the
    regular-expression engine (the longest tail first). *)
Fixpoint match_groups (groups : list nargs_kind) (pattern : list pattern_char)
    : option (list nat) :=
  match groups with
  | [] => Some []
  | g :: groups' =>
      let dashes := span_length is_pDash pattern in
      match drop dashes pattern with
      | pA :: rest =>
          (fix try (n : nat) : option (list nat) :=
             match match_groups groups' (drop n rest) with
             | Some counts => Some ((dashes + 1 + n)%nat :: counts)
             | None => match n with O => None | S n' => try n' end
             end) (span_length (in_tail_class g) rest)
      | _ => None
      end
  end.

(** [_match_arguments_partial]: as many leading actions as can be matched. *)
Fixpoint match_arguments_partial_from (i : nat) (groups : list nargs_kind)
    (pattern : list pattern_char) : list nat :=
  match i with
  | O => []
  | S i' =>
      match match_groups (take i groups) pattern with
      | Some counts => counts
      | None => match_arguments_partial_from i' groups pattern
      end
  end.

Definition match_arguments_partial (groups : list nargs_kind)
    (pattern : list pattern_char) : list nat :=
  match_arguments_partial_from (length groups) groups pattern.

(** *** Consuming the argument strings *)

(** The help action (nargs 0) reached through an option tuple.  Without an
    explicit argument it prints the help and exits.  An explicit argument
    attached to [--help] is an error, and so is an empty one; any other
    attached to [-h] is read as further single-dash flags, each of which must
    be a known one. *)
Fixpoint single_dash_flags {A} (parser : option string) (explicit_arg : string)
    : outcome A :=
  match explicit_arg with
  | EmptyString => Error parser (ignored_explicit_argument explicit_arg)
  | String c rest =>
      if bool_decide (String "-" (String c "") ∈ option_strings) then
        match rest with
        | EmptyString => Help parser
        | _ => single_dash_flags parser rest
        end
      else Error parser (ignored_explicit_argument explicit_arg)
  end.

Definition consume_help {A} (parser : option string) (option_string : string)
    (explicit_arg : option string) : outcome A :=
  match explicit_arg with
  | None => Help parser
  | Some e =>
      if second_is_prefix_char option_string
      then Error parser (ignored_explicit_argument e)
      else single_dash_flags parser e
  end.

Section engine.

Context {Action : Type}.
(** The parser that runs: its name, and of each positional action its
    pattern, its name in the "required" message when it is required, and what
    taking the action on its argument strings does to the namespace (with the
    unrecognized arguments that a sub-parser hands back). *)
Variable parser : option string.
Variable nargs : Action -> nargs_kind.
Variable required_name : Action -> option string.
Variable take_action :
  Action -> list string -> Namespace -> outcome (Namespace * list string).

(** The state of [_parse_known_args]: the namespace, the positionals left to
    be parsed, the extras, and the unrecognized arguments that a sub-parser
    left in the namespace. *)
Record state : Type := State {
  namespace : Namespace;
  positionals : list Action;
  extras : list string;
  unrecognized : list string
}.

(** [for action, arg_count in zip(positionals, arg_counts)]: slice off the
    argument strings of each positional and take its action. *)
Fixpoint take_actions (actions : list Action) (arg_counts : list nat)
    (args : list string) (ns : Namespace) (unrec : list string)
    : outcome (Namespace * list string) :=
  match actions, arg_counts with
  | action :: actions', arg_count :: arg_counts' =>
      obind (take_action action (take arg_count args) ns) (fun '(ns', u) =>
      take_actions actions' arg_counts' (drop arg_count args) ns' (unrec ++ u))
  | _, _ => Ok (ns, unrec)
  end.

(** [consume_positionals(start_index)], on the argument strings from
    [start_index] on: the new state and the number of strings consumed. *)
Definition consume_positionals (st : state) (toks : list (string * pattern_char))
    : outcome (state * nat) :=
  let arg_counts :=
    match_arguments_partial (map nargs (positionals st)) (map snd toks) in
  obind (take_actions (positionals st) arg_counts (map fst toks)
           (namespace st) (unrecognized st)) (fun '(ns, unrec) =>
  Ok (State ns (drop (length arg_counts) (positionals st)) (extras st) unrec,
      sum_list arg_counts)).

(** The loop that consumes positionals and optionals alternately until the
    last option string is passed.  [toks] are the argument strings from
    [start_index] on; the loop runs while one of them is an option string.
    [consume_optional] is the library function of that name, at an option
    string.  Every turn consumes at least one string, so more [fuel] than the
    length of [toks] changes nothing (see [interleave_fuel]). *)
Fixpoint interleave (fuel : nat) (st : state) (toks : list (string * pattern_char))
    : outcome (state * list (string * pattern_char)) :=
  if negb (existsb (fun t => is_pO (snd t)) toks) then Ok (st, toks)
  else
    match fuel with
    | O => Ok (st, toks)
    | S fuel' =>
        let next_option := span_length (fun t => negb (is_pO (snd t))) toks in
        let consume_optional st toks :=
          match toks with
          | (arg_string, pO (unknown_option _)) :: toks' =>
              interleave fuel' (State (namespace st) (positionals st)
                                  (extras st ++ [arg_string]) (unrecognized st)) toks'
          | (_, pO (known_option option_string explicit_arg)) :: _ =>
              consume_help parser option_string explicit_arg
          | _ => Ok (st, toks)
          end in
        match next_option with
        | O => consume_optional st toks
        | S _ =>
            obind (consume_positionals st toks) (fun '(st', consumed) =>
            match consumed with
            | S _ => interleave fuel' st' (drop consumed toks)
            | O =>
                consume_optional
                  (State (namespace st') (positionals st')
                     (extras st' ++ map fst (take next_option toks)) (unrecognized st'))
                  (drop next_option toks)
            end)
        end
    end.

(** [_parse_known_args]: the namespace and the extra argument strings. *)
Definition parse_known_args_from (ns : Namespace) (actions : list Action)
    (arg_strings : list string) : outcome (Namespace * list string) :=
  let toks := classify arg_strings in
  obind (interleave (length toks) (State ns actions [] []) toks) (fun '(st, toks') =>
  obind (consume_positionals st toks') (fun '(st', stop) =>
  let extras' := extras st' ++ map fst (drop stop toks') in
  match omap required_name (positionals st') with
  | [] => Ok (namespace st', extras' ++ unrecognized st')
  | names => Error parser (required_arguments names)
  end)).

End engine.

(** *** Positional arguments of a sub-parser *)

(** [add_argument(dest, type=..., nargs=...)]: [type] is the callable and
    [type_name] its [__name__]. *)
Record argument : Type := Argument {
  dest : string;
  type : string -> result value;
  type_name : string;
  arg_nargs : nargs_kind
}.

(** [_get_value]: an [ArgumentTypeError] of the callable becomes a usage
    error with its text, a [TypeError] or [ValueError] becomes "invalid
    value"; other exceptions are not caught. *)
Definition get_value (parser : option string) (a : argument) (arg_string : string)
    : outcome value :=
  match type a arg_string with
  | Returned v => Ok v
  | Raised e =>
      if isinstance e ArgumentTypeError
      then Error parser (type_error (dest a) (exc_args e))
      else if isinstance e TypeError || isinstance e ValueError
      then Error parser (invalid_value (dest a) (type_name a) arg_string)
      else Crash e
  end.

Fixpoint get_value_list (parser : option string) (a : argument)
    (arg_strings : list string) : outcome (list value) :=
  match arg_strings with
  | [] => Ok []
  | arg_string :: rest =>
      obind (get_value parser a arg_string) (fun v =>
      obind (get_value_list parser a rest) (fun vs => Ok (v :: vs)))
  end.

(** [arg_strings.remove('--')], doing nothing when it is absent. *)
Fixpoint remove_dashdash (arg_strings : list string) : list string :=
  match arg_strings with
  | [] => []
  | s :: rest => if bool_decide (s = "--") then rest else s :: remove_dashdash rest
  end.

(** [_get_values] for a positional: the first [--] is dropped; a single
    string for [nargs=None] gives one value, everything else a list. *)
Definition get_values (parser : option string) (a : argument)
    (arg_strings : list string) : outcome value :=
  match arg_nargs a, remove_dashdash arg_strings with
  | nargs_None, [arg_string] => get_value parser a arg_string
  | _, arg_strings' => obind (get_value_list parser a arg_strings') (fun vs => Ok (VList vs))
  end.

(** The store action: [setattr(namespace, dest, values)]. *)
Definition store (parser : option string) (a : argument) (arg_strings : list string)
    (ns : Namespace) : outcome (Namespace * list string) :=
  obind (get_values parser a arg_strings) (fun v => Ok (<[dest a := v]> ns, [])).

(** *** Parsers *)

(** A parser made by [subparsers.add_parser(name)], with its positional
    arguments in the order of the [add_argument] calls and the function given
    to [set_defaults(func=...)]. *)
Record subparser : Type := SubParser {
  name : string;
  arguments : list argument;
  func : handler
}.

(** The namespace before parsing: every [dest] defaults to [None], then the
    parser defaults are added. *)
Definition initial_namespace (p : subparser) : Namespace :=
  let with_dests :=
    foldl (fun ns a => match ns !! dest a with
                       | None => <[dest a := VNone]> ns
                       | Some _ => ns
                       end) ∅ (arguments p) in
  match with_dests !! "func" with
  | None => <["func" := VFunction (func p)]> with_dests
  | Some _ => with_dests
  end.

(** [parse_known_args] of a sub-parser.  Positionals with [nargs] [None] or
    ['+'] are required. *)
Definition subparser_parse_known_args (p : subparser) (arg_strings : list string)
    : outcome (Namespace * list string) :=
  parse_known_args_from (Some (name p)) arg_nargs (fun a => Some (dest a))
    (store (Some (name p))) (initial_namespace p) (arguments p) arg_strings.

(** [_name_parser_map[parser_name]]: a later [add_parser] with the same name
    replaces the earlier one. *)
Fixpoint name_parser_map (parsers : list subparser) (parser_name : string)
    : option subparser :=
  match parsers with
  | [] => None
  | p :: rest =>
      match name_parser_map rest parser_name with
      | Some q => Some q
      | None => if bool_decide (name p = parser_name) then Some p else None
      end
  end.

(** The sub-parsers action: the first string must be a known parser name;
    that parser parses the rest into a new namespace, which is copied into
    the namespace of the caller. *)
Definition subparsers_action (parsers : list subparser) (_ : unit)
    (values : list string) (ns : Namespace) : outcome (Namespace * list string) :=
  match values with
  | [] => Crash (Exn IndexError [AStr "list index out of range"])
  | parser_name :: arg_strings =>
      match name_parser_map parsers parser_name with
      | None => Error None (invalid_choice parser_name)
      | Some p =>
          obind (subparser_parse_known_args p arg_strings) (fun '(subnamespace, argv) =>
          Ok (subnamespace ∪ ns, argv))
      end
  end.

(** [parse_known_args] and [parse_args] of the top-level parser, whose only
    positional is the sub-parsers action (not required). *)
Definition parse_known_args (parsers : list subparser) (args : list string)
    : outcome (Namespace * list string) :=
  parse_known_args_from None (fun _ : unit => nargs_PARSER) (fun _ => None)
    (subparsers_action parsers) ∅ [tt] args.

Definition parse_args (parsers : list subparser) (args : list string)
    : outcome Namespace :=
  obind (parse_known_args parsers args) (fun '(ns, argv) =>
  match argv with
  | [] => Ok ns
  | _ :: _ => Error None (unrecognized_arguments argv)
  end).

End argparse.

Import argparse.

(** ** [prompt_parser.py] *)

Section prompt_parser.

(** [Web3.isChecksumAddress], the predicate of the web3 library. *)
Variable isChecksumAddress : string -> bool.

(** The operator handed to [get_prompt_parser]: what a call of one of its
    methods on the given arguments results in.  It either completes or fails
    with an exception. *)
Variable safe_operator : string -> list value -> result value.

(** Ethereum address validator for ArgParse. *)
Definition check_ethereum_address (address : string) : result string :=
  if negb (isChecksumAddress address)
  then Raised (Exn ArgumentTypeError
                 [AStr (address +:+ " is not a valid checksummed ethereum address")])
  else Returned address.

(** The callables given as [type=]: [str], [check_ethereum_address] and
    [int].  The text of the [ValueError] of [int], which [argparse] discards,
    is left out. *)
Definition str_ (s : string) : result value := Returned (VStr s).

Definition check_ethereum_address_ (s : string) : result value :=
  match check_ethereum_address s with
  | Returned a => Returned (VStr a)
  | Raised e => Raised e
  end.

Definition int_ (s : string) : result value :=
  match builtins.int s with
  | Some n => Returned (VInt n)
  | None => Raised (Exn ValueError [])
  end.

(** [add_argument(dest, type=str / check_ethereum_address / int)], with
    [nargs] where it is given. *)
Definition arg_str (dest : string) (n : nargs_kind) : argument :=
  Argument dest str_ "str" n.
Definition arg_address (dest : string) (n : nargs_kind) : argument :=
  Argument dest check_ethereum_address_ "check_ethereum_address" n.
Definition arg_int (dest : string) (n : nargs_kind) : argument :=
  Argument dest int_ "int" n.

(** The sub-parsers that [get_prompt_parser] registers, in source order. *)
Definition subparsers : list subparser :=
  [ SubParser "show_cli_owners" [] show_cli_owners;
    SubParser "load_cli_owners" [arg_str "keys" nargs_plus] load_cli_owners;
    SubParser "unload_cli_owners" [arg_address "addresses" nargs_plus]
      unload_cli_owners;
    SubParser "change_threshold" [arg_int "threshold" nargs_None] change_threshold;
    SubParser "add_owner" [arg_address "address" nargs_None] add_owner;
    SubParser "remove_owner" [arg_address "address" nargs_None] remove_owner;
    SubParser "change_fallback_handler" [arg_address "address" nargs_None]
      change_fallback_handler;
    SubParser "change_master_copy" [arg_address "address" nargs_None]
      change_master_copy;
    SubParser "update" [] update_version;
    SubParser "send_ether"
      [arg_address "address" nargs_None; arg_int "value" nargs_None] send_ether;
    SubParser "send_erc20"
      [arg_address "address" nargs_None; arg_address "token_address" nargs_None;
       arg_int "value" nargs_None] send_erc20;
    SubParser "send_erc721"
      [arg_address "address" nargs_None; arg_address "token_address" nargs_None;
       arg_int "token_id" nargs_None] send_erc721;
    SubParser "get_threshold" [] get_threshold;
    SubParser "get_nonce" [] get_nonce;
    SubParser "get_owners" [] get_owners;
    SubParser "enable_module" [arg_address "address" nargs_None] enable_module;
    SubParser "disable_module" [arg_address "address" nargs_None] disable_module;
    SubParser "info" [] get_info;
    SubParser "refresh" [] get_refresh;
    SubParser "balances" [] get_balances;
    SubParser "history" [] get_history ].

(** [get_prompt_parser(safe_operator).parse_args(args)]. *)
Definition prompt_parser_parse_args (args : list string) : outcome Namespace :=
  parse_args subparsers args.

(** [args.attr] on a namespace. *)
Definition getattr (args : Namespace) (attr : string) : Run value :=
  match args !! attr with
  | Some v => ret v
  | None =>
      raise (Exn AttributeError
               [AStr ("'Namespace' object has no attribute '" +:+ attr +:+ "'")])
  end.

(** [safe_operator.method(arguments)]: the call is recorded, then the
    operator answers. *)
Definition operator_call (method : string) (arguments : list value) : Run value :=
  emit (OperatorCall method arguments) ;;; ([], safe_operator method arguments).

(** A handler body that passes the attributes [attrs] of the namespace, read
    from left to right, to [method]; the body has no [return] statement. *)
Fixpoint getattrs (args : Namespace) (attrs : list string) : Run (list value) :=
  match attrs with
  | [] => ret []
  | attr :: rest =>
      v <- getattr args attr ;;
      vs <- getattrs args rest ;;
      ret (v :: vs)
  end.

Definition body (method : string) (attrs : list string) (args : Namespace) : Run value :=
  arguments <- getattrs args attrs ;;
  operator_call method arguments ;;;
  ret VNone.

(** The functions defined inside [get_prompt_parser], before decoration: the
    operator method each one calls and the attributes it passes. *)
Definition function (f : handler) : Namespace -> Run value :=
  match f with
  | show_cli_owners => body "show_cli_owners" []
  | load_cli_owners => body "load_cli_owners" ["keys"]
  | unload_cli_owners => body "unload_cli_owners" ["addresses"]
  | add_owner => body "add_owner" ["address"]
  | remove_owner => body "remove_owner" ["address"]
  | change_fallback_handler => body "change_fallback_handler" ["address"]
  | change_master_copy => body "change_master_copy" ["address"]
  | change_threshold => body "change_threshold" ["threshold"]
  | send_ether => body "send_ether" ["address"; "value"]
  | send_erc20 => body "send_erc20" ["address"; "token_address"; "value"]
  | send_erc721 => body "send_erc721" ["address"; "token_address"; "token_id"]
  | get_threshold => body "get_threshold" []
  | get_nonce => body "get_nonce" []
  | get_owners => body "get_owners" []
  | enable_module => body "enable_module" ["address"]
  | disable_module => body "disable_module" ["address"]
  | update_version => body "update_version" []
  | get_info => body "print_info" []
  | get_refresh => body "refresh_safe_cli_info" []
  | get_balances => body "get_balances" []
  | get_history => body "get_transaction_history" []
  end.

(** The name [f] after decoration: [@safe_exception] wraps every function. *)
Definition decorated (f : handler) : Namespace -> Run value :=
  safe_exception (function f).

(** [args.func(args)] on a parsed namespace. *)
Definition invoke (args : Namespace) : Run value :=
  f <- getattr args "func" ;;
  match f with
  | VFunction f => decorated f args
  | _ => raise (Exn TypeError [AStr "object is not callable"])
  end.

(** Modelled from the spec: the dispatch loop, which is not part of this
    file, "reads one line, hands it to the registry for parsing, invokes the
    wrapped handler".  [args] are the whitespace-delimited tokens of the line.
    When parsing does not return a namespace nothing else runs; otherwise
    [args.func(args)] is called.  The result is the events of the call and how
    the command ended. *)
Definition dispatch (args : list string) : list event * outcome (result value) :=
  match prompt_parser_parse_args args with
  | Ok ns => let '(evs, r) := invoke ns in (evs, Ok r)
  | Error p m => ([], Error p m)
  | Help p => ([], Help p)
  | Crash e => ([], Crash e)
  end.

End prompt_parser.

(** ** [Web3.isChecksumAddress]

    A model of the predicate of the web3 library, for runs on concrete
    addresses (the theorems hold for every predicate): a string is a checksum
    address when it is [0x] followed by forty hexadecimal digits whose letters
    are in upper case exactly where the Keccak-256 hash of the lower-case
    digits has a hexadecimal digit above seven (EIP-55). *)

Module web3.

Definition rotl (x n : Z) : Z :=
  Z.land (Z.lor (Z.shiftl x n) (Z.shiftr x (64 - n))) (Z.ones 64).

(** Rotation offsets and round constants of Keccak-f[1600]; lane [(x, y)] is
    at index [x + 5 * y]. *)
Definition rotation_offsets : list Z :=
  [0; 1; 62; 28; 27; 36; 44; 6; 55; 20; 3; 10; 43; 25; 39; 41; 45; 15; 21; 8;
   18; 2; 61; 56; 14].

Definition round_constants : list Z :=
  [0x1; 0x8082; 0x800000000000808a; 0x8000000080008000; 0x808b; 0x80000001;
   0x8000000080008081; 0x8000000000008009; 0x8a; 0x88; 0x80008009; 0x8000000a;
   0x8000808b; 0x800000000000008b; 0x8000000000008089; 0x8000000000008003;
   0x8000000000008002; 0x8000000000000080; 0x800a; 0x800000008000000a;
   0x8000000080008081; 0x8000000000008080; 0x80000001; 0x8000000080008008].

Definition lane (A : list Z) (x y : nat) : Z := nth (x mod 5 + 5 * y)%nat A 0.

Definition keccak_round (A : list Z) (rc : Z) : list Z :=
  let C x := fold_right Z.lxor 0 (map (lane A x) (seq 0 5)) in
  let D x := Z.lxor (C (x + 4)%nat) (rotl (C (x + 1)%nat) 1) in
  let theta := map (fun i => Z.lxor (nth i A 0) (D (i mod 5)%nat)) (seq 0 25) in
  let rho_pi :=
    map (fun i =>
           let X := (i mod 5)%nat in
           let Y := (i / 5)%nat in
           let x := ((X + 3 * Y) mod 5)%nat in
           rotl (lane theta x X) (nth (x + 5 * X)%nat rotation_offsets 0))
        (seq 0 25) in
  let chi :=
    map (fun i =>
           let x := (i mod 5)%nat in
           let y := (i / 5)%nat in
           Z.lxor (lane rho_pi x y)
             (Z.land (Z.lxor (lane rho_pi (x + 1) y) (Z.ones 64)) (lane rho_pi (x + 2) y)))
        (seq 0 25) in
  match chi with
  | a :: rest => Z.lxor a rc :: rest
  | [] => []
  end.

Definition keccak_f (A : list Z) : list Z := fold_left keccak_round round_constants A.

Fixpoint little_endian (bytes : list Z) : Z :=
  match bytes with
  | [] => 0
  | b :: rest => b + 256 * little_endian rest
  end.

Fixpoint lanes_of (n : nat) (bytes : list Z) : list Z :=
  match n with
  | O => []
  | S n' => little_endian (take 8 bytes) :: lanes_of n' (drop 8 bytes)
  end.

(** Absorbing the padded message in blocks of 136 bytes (17 lanes). *)
Fixpoint absorb (blocks : nat) (A : list Z) (bytes : list Z) : list Z :=
  match blocks with
  | O => A
  | S blocks' =>
      let block := lanes_of 17 (take 136 bytes) ++ repeat 0 8 in
      absorb blocks' (keccak_f (zip_with Z.lxor A block)) (drop 136 bytes)
  end.

(** Keccak padding: a one bit, zeros, and a one bit that ends the block. *)
Definition pad (msg : list Z) : list Z :=
  let zeros := (135 - length msg mod 136)%nat in
  match zeros with
  | O => msg ++ [0x81]
  | S z => msg ++ [0x01] ++ repeat 0 z ++ [0x80]
  end.

(** The 64 hexadecimal digits of the Keccak-256 hash, as numbers. *)
Definition keccak256_nibbles (msg : list Z) : list Z :=
  let padded := pad msg in
  let A := absorb (length padded / 136) (repeat 0 25) padded in
  flat_map (fun w =>
              flat_map (fun k => let b := Z.land (Z.shiftr w (8 * Z.of_nat k)) 255 in
                                 [Z.shiftr b 4; Z.land b 15])
                       (seq 0 8))
           (take 4 A).

Definition code (c : ascii) : Z := Z.of_N (N_of_ascii c).

Definition is_hex_digit (c : ascii) : bool :=
  ((48 <=? code c) && (code c <=? 57))
  || ((97 <=? code c) && (code c <=? 102))
  || ((65 <=? code c) && (code c <=? 70)).

Definition lower (c : ascii) : ascii :=
  if (65 <=? code c) && (code c <=? 90) then ascii_of_N (Z.to_N (code c + 32)) else c.
Definition upper (c : ascii) : ascii :=
  if (97 <=? code c) && (code c <=? 122) then ascii_of_N (Z.to_N (code c - 32)) else c.

(** The checksum casing of forty hexadecimal digits. *)
Definition checksum_case (digits : list ascii) : list ascii :=
  let norm := map lower digits in
  zip_with (fun c h => if 7 <? h then upper c else c) norm
    (keccak256_nibbles (map code norm)).

Definition isChecksumAddress (value : string) : bool :=
  match value with
  | String "0" (String "x" digits) =>
      let ds := list_ascii_of_string digits in
      (length ds =? 40)%nat && forallb is_hex_digit ds
      && bool_decide (checksum_case ds = ds)
  | _ => false
  end.

End web3.


(** * Notions of the statements

    The definitions below follow the words of the specification, or describe
    the inputs and the intermediate results that the statements are about;
    the theorems relate them to the embedding of the code above. *)

(** ** The failure kinds of the specification *)

(** The closed taxonomy of failure kinds. *)
Inductive ErrorKind : Type :=
| GenericOperatorFailure
| InsufficientSignatures
| MissingSender
| OwnerAlreadyPresent
| OwnerNotPresent
| ThresholdBelowOwnerFloor
| FallbackHandlerUnchanged
| FallbackHandlerUnsupported
| MasterCopyUnchanged
| MasterCopyInvalid
| AlreadyAtLatestVersion
| InsufficientBalance.

(** Whether a kind carries a contextual payload: never, optionally (the text
    of a generic failure) or always. *)
Inductive payload_presence : Type :=
| no_payload
| optional_payload
| required_payload.

Definition payload_of (k : ErrorKind) : payload_presence :=
  match k with
  | GenericOperatorFailure => optional_payload
  | MissingSender | ThresholdBelowOwnerFloor | FallbackHandlerUnsupported
  | AlreadyAtLatestVersion => no_payload
  | _ => required_payload
  end.

(** The exception classes of the source that stand for each kind: a shortage
    of ether and a shortage of tokens are both an insufficient balance. *)
Definition classes_of (k : ErrorKind) : list exception_class :=
  match k with
  | GenericOperatorFailure => [BaseAPIException]
  | InsufficientSignatures => [NotEnoughSignatures]
  | MissingSender => [SenderRequiredException]
  | OwnerAlreadyPresent => [ExistingOwnerException]
  | OwnerNotPresent => [NonExistingOwnerException]
  | ThresholdBelowOwnerFloor => [ThresholdLimitException]
  | FallbackHandlerUnchanged => [SameFallbackHandlerException]
  | FallbackHandlerUnsupported => [FallbackHandlerNotSupportedException]
  | MasterCopyUnchanged => [SameMasterCopyException]
  | MasterCopyInvalid => [InvalidMasterCopyException]
  | AlreadyAtLatestVersion => [SafeAlreadyUpdatedException]
  | InsufficientBalance => [NotEnoughEtherToSend; NotEnoughTokenToSend]
  end.

(** The message template of each kind, filled with the text of its payload. *)
Definition message (k : ErrorKind) (payload : string) : string :=
  match k with
  | GenericOperatorFailure => "<b><ansired>" +:+ payload +:+ "</ansired></b>"
  | InsufficientSignatures =>
      "<ansired>Cannot find enough owners to sign. " +:+ payload +:+ " missing</ansired>"
  | MissingSender => "<ansired>Please load a default sender</ansired>"
  | OwnerAlreadyPresent =>
      "<ansired>Owner " +:+ payload +:+ " is already an owner of the Safe</ansired>"
  | OwnerNotPresent =>
      "<ansired>Owner " +:+ payload +:+ " is not an owner of the Safe</ansired>"
  | ThresholdBelowOwnerFloor =>
      "<ansired>Having less owners than threshold is not allowed</ansired>"
  | FallbackHandlerUnchanged =>
      "<ansired>Fallback handler " +:+ payload +:+ " is the current one</ansired>"
  | FallbackHandlerUnsupported =>
      "<ansired>Fallback handler is not supported for your Safe, "
      +:+ "you need to <b>update</b> first</ansired>"
  | MasterCopyUnchanged =>
      "<ansired>Master Copy " +:+ payload +:+ " is the current one</ansired>"
  | MasterCopyInvalid => "<ansired>Master Copy " +:+ payload +:+ " is not valid</ansired>"
  | AlreadyAtLatestVersion => "<ansired>Safe is already updated</ansired>"
  | InsufficientBalance =>
      "<ansired>Cannot find enough to send. Current balance is " +:+ payload +:+ "</ansired>"
  end.


(** The classes named by the [except] clauses of [wrapper]. *)
Definition translated_classes : list exception_class := flat_map fst except_clauses.

(** ** Argument tokens and arity *)

(** The argument strings that [argparse] reads as positional arguments:
    neither the separator [--] nor an option string.  A string that does not
    begin with [-] is one (see [positional_without_dash]). *)
Definition positional (arg_string : string) : bool :=
  negb (bool_decide (arg_string = "--"))
  && match parse_optional arg_string with None => true | Some _ => false end.

Definition is_nargs_None (x : argument) : bool :=
  match arg_nargs x with nargs_None => true | _ => false end.

Definition is_nargs_plus (x : argument) : bool :=
  match arg_nargs x with nargs_plus => true | _ => false end.

(** The number [n] of argument tokens exactly satisfies the declared arity:
    one token for every exactly-one argument, and at least one for a
    one-or-more argument. *)
Definition satisfies_arity (xs : list argument) (n : nat) : bool :=
  if existsb is_nargs_plus xs then (length xs <=? n)%nat else (n =? length xs)%nat.

(** The argument that the [i]-th argument token is matched against: the
    [i]-th declared argument, or the last one when it is one-or-more. *)
Definition slot (xs : list argument) (i : nat) : option argument :=
  match xs !! i with
  | Some x => Some x
  | None =>
      match last xs with
      | Some x => if is_nargs_plus x then Some x else None
      | None => None
      end
  end.

(** The shapes of argument lists that [get_prompt_parser] declares: single
    strings only, or one argument of one or more strings. *)
Definition declared_shape (xs : list argument) : bool :=
  forallb is_nargs_None xs
  || match xs with
     | [x] => is_nargs_plus x
     | _ => false
     end.

(** The assignment of positional argument strings to the arguments of a
    sub-parser, in order: an argument with [nargs=None] takes one string, a
    final argument with [nargs='+'] takes all the strings that are left.
    The result is the namespace and the strings that no argument took. *)
Fixpoint assign (parser : option string) (xs : list argument) (args : list string)
    (ns : Namespace) : outcome (Namespace * list string) :=
  match xs with
  | [] => Ok (ns, args)
  | x :: xs' =>
      match args with
      | [] => Error parser (required_arguments (map dest xs))
      | a :: args' =>
          match arg_nargs x, xs' with
          | nargs_plus, [] =>
              obind (get_value_list parser x args) (fun vs =>
              Ok (<[dest x := VList vs]> ns, []))
          | _, _ =>
              obind (get_value parser x a) (fun v =>
              assign parser xs' args' (<[dest x := v]> ns))
          end
      end
  end.

(** Resolution of a command line whose argument tokens are all positional:
    assign the tokens, then reject the ones left over. *)
Definition parse_positionals (p : subparser) (args : list string) : outcome Namespace :=
  obind (assign (Some (name p)) (arguments p) args (initial_namespace p))
    (fun '(ns, argv) =>
       match argv with
       | [] => Ok ns
       | _ :: _ => Error None (unrecognized_arguments argv)
       end).

(** What is left of [_parse_known_args] of a sub-parser once the positionals
    are matched: take the actions, then report the required arguments that
    are missing. *)
Definition finish (parser : option string) (xs : list argument) (arg_counts : list nat)
    (args : list string) (ns : Namespace) : outcome (Namespace * list string) :=
  obind (take_actions (store parser) xs arg_counts args ns []) (fun '(ns', unrec) =>
  match omap (fun a => Some (dest a)) (drop (length arg_counts) xs) with
  | [] => Ok (ns', drop (sum_list arg_counts) args ++ unrec)
  | names => Error parser (required_arguments names)
  end).

(** ** Integer tokens *)






(** The value of a decimal numeral of the standard library read after [acc];
    it relates [int] to the rendering of integers by [str]. *)
Fixpoint uint_value (acc : Z) (d : Decimal.uint) : Z :=
  match d with
  | Decimal.Nil => acc
  | Decimal.D0 d => uint_value (10 * acc) d
  | Decimal.D1 d => uint_value (10 * acc + 1) d
  | Decimal.D2 d => uint_value (10 * acc + 2) d
  | Decimal.D3 d => uint_value (10 * acc + 3) d
  | Decimal.D4 d => uint_value (10 * acc + 4) d
  | Decimal.D5 d => uint_value (10 * acc + 5) d
  | Decimal.D6 d => uint_value (10 * acc + 6) d
  | Decimal.D7 d => uint_value (10 * acc + 7) d
  | Decimal.D8 d => uint_value (10 * acc + 8) d
  | Decimal.D9 d => uint_value (10 * acc + 9) d
  end.


(** ** Test doubles *)

(** A stub operator: every method completes silently. *)
Definition silent_operator (method : string) (arguments : list value) : result value :=
  Returned VNone.

(** A stub operator: every method fails with the exception [e]. *)
Definition failing_operator (e : exn) (method : string) (arguments : list value)
    : result value :=
  Raised e.

(** ** Values of a resolved command *)

(** The value that a sub-parser stores for the argument [x]: what the type
    callable returns on one argument string, or the list of what it returns
    on each string of a list, which may be empty. *)
Definition converted (x : argument) (v : value) : Prop :=
  (exists s, type x s = Returned v)
  \/ (exists strs vs, v = VList vs /\ Forall2 (fun s w => type x s = Returned w) strs vs).

(** The strings that a value holds. *)
Fixpoint strings_of (v : value) : list string :=
  match v with
  | VStr s => [s]
  | VList l =>
      (fix go (l : list value) : list string :=
         match l with
         | [] => []
         | w :: l' => strings_of w ++ go l'
         end) l
  | _ => []
  end.

(** * Properties *)

(** ** Runs on concrete inputs *)

Example scenario_insufficient_balance :
  safe_exception (fun _ : unit => raise (Exn NotEnoughEtherToSend [AInt 500])) tt
  = ([PrintFormattedText
        "<ansired>Cannot find enough to send. Current balance is 500</ansired>"],
     Returned VNone).
Proof. reflexivity. Qed.

Example str_of_int :
  Py.str (AInt 500) = "500" /\ Py.str (AInt 0) = "0" /\ Py.str (AInt (-42)) = "-42".
Proof. repeat split; reflexivity. Qed.

Example int_plain : builtins.int "1000000" = Some 1000000.
Proof. reflexivity. Qed.

Example int_negative : builtins.int "-3" = Some (-3).
Proof. reflexivity. Qed.

Example int_underscore : builtins.int "1_000" = Some 1000.
Proof. reflexivity. Qed.

Example int_bad_underscore :
  builtins.int "1__0" = None /\ builtins.int "_1" = None /\ builtins.int "1_" = None.
Proof. repeat split; reflexivity. Qed.

Example int_non_numeric :
  builtins.int "abc" = None /\ builtins.int "" = None /\ builtins.int "0x10" = None
  /\ builtins.int "1.5" = None /\ builtins.int "+-1" = None.
Proof. repeat split; reflexivity. Qed.

Example keccak256_empty :
  web3.keccak256_nibbles []
  = [0xc; 5; 0xd; 2; 4; 6; 0; 1; 8; 6; 0xf; 7; 2; 3; 3; 0xc; 9; 2; 7; 0xe; 7; 0xd; 0xb; 2;
     0xd; 0xc; 0xc; 7; 0; 3; 0xc; 0; 0xe; 5; 0; 0; 0xb; 6; 5; 3; 0xc; 0xa; 8; 2; 2; 7; 3;
     0xb; 7; 0xb; 0xf; 0xa; 0xd; 8; 0; 4; 5; 0xd; 8; 5; 0xa; 4; 7; 0].
Proof. vm_compute. reflexivity. Qed.

Example checksum_addresses :
  web3.isChecksumAddress "0x5aAeb6053F3E94C9b9A09f33669435E7Ef1BeAed" = true
  /\ web3.isChecksumAddress "0xfB6916095ca1df60bB79Ce92cE3Ea74c37c5d359" = true
  /\ web3.isChecksumAddress "0x5aaeb6053f3e94c9b9a09f33669435e7ef1beaed" = false
  /\ web3.isChecksumAddress "5aAeb6053F3E94C9b9A09f33669435E7Ef1BeAed" = false
  /\ web3.isChecksumAddress "notanaddress" = false.
Proof. vm_compute. repeat split. Qed.

(** ** The error translator *)

Lemma translated_classes_are_the_kinds :
  translated_classes
  = flat_map classes_of
      [GenericOperatorFailure; InsufficientSignatures; MissingSender;
       OwnerAlreadyPresent; OwnerNotPresent; ThresholdBelowOwnerFloor;
       FallbackHandlerUnchanged; FallbackHandlerUnsupported; MasterCopyUnchanged;
       MasterCopyInvalid; AlreadyAtLatestVersion; InsufficientBalance].
Proof. reflexivity. Qed.

(** What [wrapper] does when [function] raises: the first matching clause
    runs and [wrapper] returns [None], or the exception propagates. *)
Lemma safe_exception_raised {A} (function : A -> Run value) a evs e :
  function a = (evs, Raised e) ->
  safe_exception function a
  = match select_clause except_clauses e with
    | Some body => let '(evs', r) := (body ;;; ret VNone) in (evs ++ evs', r)
    | None => (evs, Raised e)
    end.
Proof.
  intros H. unfold safe_exception, try_except. rewrite H.
  destruct (select_clause except_clauses e); reflexivity.
Qed.

Lemma safe_exception_returned {A} (function : A -> Run value) a evs v :
  function a = (evs, Returned v) ->
  safe_exception function a = (evs, Returned v).
Proof. intros H. unfold safe_exception, try_except. rewrite H. reflexivity. Qed.



(** C2: a failure that is not of one of the translated classes is not
    translated: it leaves the wrapper unchanged, and nothing is emitted. *)
Theorem unmatched_failure_propagates :
  forall (A : Type) (function : A -> Run value) (a : A) (evs : list event) (e : exn),
    exc_class e ∉ translated_classes ->
    function a = (evs, Raised e) ->
    safe_exception function a = (evs, Raised e).
Proof.
  intros A function a evs e Hclass Hf.
  rewrite (safe_exception_raised _ _ _ _ Hf).
  assert (Hno : forall C, C ∈ translated_classes -> isinstance e C = false).
  { intros C HC. unfold isinstance. apply bool_decide_eq_false_2.
    intros Heq. apply Hclass. rewrite Heq. exact HC. }
  unfold except_clauses, select_clause; simpl.
  rewrite !Hno by compute_done.
  reflexivity.
Qed.

Lemma unmatched_failure_propagates_witness :
  (exc_class (Exn (OtherException "ConnectionError") [AStr "node unreachable"])
     ∉ translated_classes)
  /\ function (failing_operator (Exn (OtherException "ConnectionError")
                                   [AStr "node unreachable"])) get_nonce ∅
     = ([OperatorCall "get_nonce" []],
        Raised (Exn (OtherException "ConnectionError") [AStr "node unreachable"]))
  /\ decorated (failing_operator (Exn (OtherException "ConnectionError")
                                    [AStr "node unreachable"])) get_nonce ∅
     = ([OperatorCall "get_nonce" []],
        Raised (Exn (OtherException "ConnectionError") [AStr "node unreachable"])).
Proof.
  split; [compute_done|]. split; [reflexivity|].
  apply (unmatched_failure_propagates Namespace
           (function (failing_operator (Exn (OtherException "ConnectionError")
                                          [AStr "node unreachable"])) get_nonce)
           ∅ [OperatorCall "get_nonce" []]
           (Exn (OtherException "ConnectionError") [AStr "node unreachable"])).
  - compute_done.
  - reflexivity.
Defined.

(** C7: for every kind whose translation reads its payload, a failure of that
    kind raised without a payload makes the wrapper itself fail: reading the
    first element of the empty [args] raises [IndexError], and no message is
    emitted. *)
Theorem missing_payload_fails_in_wrapper :
  forall (k : ErrorKind) (C : exception_class)
         (A : Type) (function : A -> Run value) (a : A) (evs : list event),
    C ∈ classes_of k ->
    payload_of k = required_payload ->
    function a = (evs, Raised (Exn C [])) ->
    safe_exception function a
    = (evs, Raised (Exn IndexError [AStr "tuple index out of range"])).
Proof.
  intros k C A function a evs HC Hp Hf.
  rewrite (safe_exception_raised _ _ _ _ Hf).
  destruct k; try discriminate Hp; simpl in HC; set_unfold in HC;
    destruct_or?; subst C; simpl; rewrite ?app_nil_r; reflexivity.
Qed.

Lemma missing_payload_fails_in_wrapper_witness :
  ExistingOwnerException ∈ classes_of OwnerAlreadyPresent
  /\ payload_of OwnerAlreadyPresent = required_payload
  /\ function (failing_operator (Exn ExistingOwnerException [])) get_owners ∅
     = ([OperatorCall "get_owners" []], Raised (Exn ExistingOwnerException []))
  /\ decorated (failing_operator (Exn ExistingOwnerException [])) get_owners ∅
     = ([OperatorCall "get_owners" []],
        Raised (Exn IndexError [AStr "tuple index out of range"])).
Proof.
  split; [compute_done|]. split; [reflexivity|]. split; [reflexivity|].
  apply (missing_payload_fails_in_wrapper OwnerAlreadyPresent ExistingOwnerException
           Namespace (function (failing_operator (Exn ExistingOwnerException [])) get_owners)
           ∅ [OperatorCall "get_owners" []]).
  - compute_done.
  - reflexivity.
  - reflexivity.
Defined.

(** C10: when the wrapped function raises a [BaseAPIException] that carries
    no payload, the wrapper emits nothing and does not raise: it returns
    [None], and the failure leaves no trace. *)
Theorem generic_failure_without_text_is_swallowed :
  forall (A : Type) (function : A -> Run value) (a : A) (evs : list event),
    function a = (evs, Raised (Exn BaseAPIException [])) ->
    safe_exception function a = (evs, Returned VNone).
Proof.
  intros A function a evs Hf.
  rewrite (safe_exception_raised _ _ _ _ Hf). simpl.
  rewrite app_nil_r. reflexivity.
Qed.

Lemma generic_failure_without_text_is_swallowed_witness :
  function (failing_operator (Exn BaseAPIException [])) get_balances ∅
  = ([OperatorCall "get_balances" []], Raised (Exn BaseAPIException []))
  /\ decorated (failing_operator (Exn BaseAPIException [])) get_balances ∅
     = ([OperatorCall "get_balances" []], Returned VNone).
Proof.
  split; [reflexivity|].
  apply (generic_failure_without_text_is_swallowed Namespace
           (function (failing_operator (Exn BaseAPIException [])) get_balances)
           ∅ [OperatorCall "get_balances" []]).
  reflexivity.
Defined.

(** ** [argparse] on positional argument strings *)

Lemma classify_positional (args : list string) :
  forallb positional args = true ->
  classify args = map (fun a => (a, pA)) args.
Proof.
  induction args as [|a args IH]; simpl; [reflexivity|].
  intros H. apply andb_true_iff in H as [Ha Hargs].
  unfold positional in Ha. apply andb_true_iff in Ha as [Hd Ho].
  apply negb_true_iff in Hd. rewrite Hd.
  destruct (parse_optional a); [discriminate|].
  rewrite IH by assumption. reflexivity.
Qed.

Lemma remove_dashdash_positional (args : list string) :
  forallb positional args = true -> remove_dashdash args = args.
Proof.
  induction args as [|a args IH]; simpl; [reflexivity|].
  intros H. apply andb_true_iff in H as [Ha Hargs].
  unfold positional in Ha. apply andb_true_iff in Ha as [Hd _].
  apply negb_true_iff in Hd. rewrite Hd, IH by assumption. reflexivity.
Qed.

Lemma no_option_among_positionals (args : list string) :
  existsb (fun t : string * pattern_char => is_pO (snd t)) (map (fun a => (a, pA)) args)
  = false.
Proof. induction args; simpl; auto. Qed.

Lemma span_length_all {A} (f : A -> bool) (l : list A) :
  (forall x, f x = true) -> span_length f l = length l.
Proof. intros Hf. induction l; simpl; [|rewrite Hf, IHl]; reflexivity. Qed.

Lemma span_length_replicate {A} (f : A -> bool) (c : A) (n : nat) :
  f c = true -> span_length f (replicate n c) = n.
Proof. intros Hc. induction n; simpl; [|rewrite Hc, IHn]; reflexivity. Qed.

Lemma classify_fst (args : list string) : map fst (classify args) = args.
Proof.
  induction args as [|a args IH]; simpl; [reflexivity|].
  case_bool_decide; simpl.
  - rewrite map_map. simpl. rewrite map_id. reflexivity.
  - rewrite IH. reflexivity.
Qed.

Lemma map_fst_pA (args : list string) : map fst (map (fun a => (a, pA)) args) = args.
Proof. rewrite map_map. apply map_id. Qed.

Lemma map_pA_replicate (args : list string) :
  map snd (map (fun a => (a, pA)) args) = replicate (length args) pA.
Proof. induction args; simpl; congruence. Qed.

Lemma omap_dest (xs : list argument) :
  omap (fun a => Some (dest a)) xs = map dest xs.
Proof. induction xs as [|x xs IH]; [reflexivity|]. cbn. rewrite <- IH. reflexivity. Qed.

(** Without an option string among the argument strings the loop that
    alternates positionals and optionals is not entered. *)
Lemma interleave_no_option {Action} (parser : option string)
    (nargs : Action -> nargs_kind)
    (take_action : Action -> list string -> Namespace -> outcome (Namespace * list string))
    (fuel : nat) (st : state) (toks : list (string * pattern_char)) :
  existsb (fun t : string * pattern_char => is_pO (snd t)) toks = false ->
  interleave parser nargs take_action fuel st toks = Ok (st, toks).
Proof. intros H. destruct fuel; simpl; rewrite H; reflexivity. Qed.

(** *** Matching the patterns *)

(** The sub-parsers action takes every string from the first positional on. *)
Lemma match_PARSER (l : list pattern_char) :
  match_arguments_partial [nargs_PARSER] (pA :: l) = [S (length l)].
Proof.
  unfold match_arguments_partial. simpl.
  rewrite (span_length_all (in_tail_class nargs_PARSER)) by (intros []; reflexivity).
  destruct (length l) eqn:E; reflexivity.
Qed.

Lemma match_groups_None (k n : nat) :
  match_groups (replicate k nargs_None) (replicate n pA)
  = if (k <=? n)%nat then Some (replicate k 1%nat) else None.
Proof.
  revert n. induction k as [|k IH]; intros n; simpl.
  - reflexivity.
  - destruct n as [|n]; simpl; [reflexivity|].
    assert (Hs : span_length (in_tail_class nargs_None) (replicate n pA) = O)
      by (destruct n; reflexivity).
    rewrite Hs, drop_0, IH.
    destruct (k <=? n)%nat; reflexivity.
Qed.

(** Arguments of one string each take the leading strings, one each. *)
Lemma match_partial_None (i k n : nat) :
  (i <= k)%nat ->
  match_arguments_partial_from i (replicate k nargs_None) (replicate n pA)
  = replicate (i `min` n) 1%nat.
Proof.
  induction i as [|i IH]; intros Hi; [reflexivity|].
  cbn [match_arguments_partial_from].
  rewrite take_replicate, (Nat.min_l (S i) k) by lia.
  rewrite match_groups_None.
  destruct (Nat.leb_spec (S i) n).
  - rewrite Nat.min_l by lia. reflexivity.
  - rewrite IH by lia. rewrite !Nat.min_r by lia. reflexivity.
Qed.

(** An argument of one or more strings takes all of them, if there is one. *)
Lemma match_partial_plus (n : nat) :
  match_arguments_partial [nargs_plus] (replicate n pA)
  = match n with O => [] | S _ => [n] end.
Proof.
  unfold match_arguments_partial. destruct n as [|n]; [reflexivity|]. simpl.
  rewrite span_length_replicate by reflexivity.
  destruct n; reflexivity.
Qed.

(** *** The top-level parser *)

Section top_level.

Variable parsers : list subparser.

Local Opaque subparsers_action.

Lemma top_consume_positionals (cmd : string) (toks : list (string * pattern_char)) :
  consume_positionals (fun _ : unit => nargs_PARSER) (subparsers_action parsers)
    (State ∅ [tt] [] []) ((cmd, pA) :: toks)
  = obind (subparsers_action parsers tt (cmd :: map fst toks) ∅) (fun '(ns, u) =>
    Ok (State ns [] [] u, S (length toks))).
Proof.
  unfold consume_positionals.
  cbn [positionals namespace unrecognized extras map fst snd].
  rewrite match_PARSER. cbn [take_actions take].
  rewrite length_map, <- (length_map fst toks), firstn_all.
  destruct (subparsers_action parsers tt (cmd :: map fst toks) ∅) as [[ns u]| | |];
    cbn [obind]; try reflexivity.
  rewrite length_map. cbn. rewrite Nat.add_0_r. reflexivity.
Qed.

(** When the first argument string is a positional, it is taken as the
    command name and all the other strings go to the sub-parser. *)
Lemma parse_known_args_positional_head (cmd : string) (rest : list string) :
  positional cmd = true ->
  parse_known_args parsers (cmd :: rest)
  = subparsers_action parsers tt (cmd :: rest) ∅.
Proof.
  intros Hcmd. unfold positional in Hcmd.
  apply andb_true_iff in Hcmd as [Hd Ho]. apply negb_true_iff in Hd.
  unfold parse_known_args, parse_known_args_from.
  simpl classify. rewrite Hd.
  destruct (parse_optional cmd); [discriminate|].
  set (toks := classify rest).
  assert (Hfst : map fst toks = rest) by apply classify_fst.
  simpl length. simpl interleave.
  destruct (existsb (fun t : string * pattern_char => is_pO (snd t)) toks) eqn:Hopt; simpl.
  - rewrite top_consume_positionals, Hfst.
    destruct (subparsers_action parsers tt (cmd :: rest) ∅) as [[ns u]| | |];
      simpl; try reflexivity.
    rewrite drop_all. destruct (length toks); simpl; reflexivity.
  - rewrite top_consume_positionals, Hfst.
    destruct (subparsers_action parsers tt (cmd :: rest) ∅) as [[ns u]| | |];
      simpl; try reflexivity.
    rewrite drop_all. reflexivity.
Qed.

Local Transparent subparsers_action.

Lemma name_parser_map_None (cmd : string) :
  cmd ∉ map name parsers -> name_parser_map parsers cmd = None.
Proof.
  induction parsers as [|p ps IH]; simpl; [reflexivity|].
  intros H. apply not_elem_of_cons in H as [Hp Hrest].
  rewrite IH by assumption.
  rewrite bool_decide_eq_false_2 by congruence. reflexivity.
Qed.

End top_level.

(** *** Sub-parsers *)

Section sub_level.

Variable who : option string.

Lemma parse_known_args_from_positional (xs : list argument) (args : list string)
    (ns : Namespace) :
  forallb positional args = true ->
  parse_known_args_from who arg_nargs (fun a => Some (dest a)) (store who) ns xs args
  = finish who xs
      (match_arguments_partial (map arg_nargs xs) (replicate (length args) pA)) args ns.
Proof.
  intros Hargs. unfold parse_known_args_from, finish.
  rewrite classify_positional by assumption.
  rewrite interleave_no_option by apply no_option_among_positionals.
  cbn [obind]. unfold consume_positionals.
  cbn [positionals namespace unrecognized extras].
  rewrite map_pA_replicate, map_fst_pA.
  destruct (take_actions (store who) xs _ args ns []) as [[ns' unrec]| | |];
    cbn [obind positionals namespace unrecognized extras]; try reflexivity.
  rewrite skipn_map, map_fst_pA. reflexivity.
Qed.

Lemma store_one (x : argument) (a : string) (ns : Namespace) :
  positional a = true ->
  is_nargs_None x = true ->
  store who x [a] ns
  = obind (get_value who x a) (fun v => Ok (<[dest x := v]> ns, [])).
Proof.
  intros Ha Hx. unfold store, get_values, is_nargs_None in *.
  destruct (arg_nargs x); try discriminate.
  rewrite remove_dashdash_positional by (simpl; rewrite Ha; reflexivity).
  reflexivity.
Qed.

Lemma store_many (x : argument) (args : list string) (ns : Namespace) :
  forallb positional args = true ->
  arg_nargs x = nargs_plus ->
  store who x args ns
  = obind (get_value_list who x args) (fun vs => Ok (<[dest x := VList vs]> ns, [])).
Proof.
  intros Ha Hx. unfold store, get_values. rewrite Hx.
  rewrite remove_dashdash_positional by assumption.
  destruct (get_value_list who x args); reflexivity.
Qed.

Lemma finish_None (xs : list argument) (args : list string) (ns : Namespace) :
  forallb is_nargs_None xs = true ->
  forallb positional args = true ->
  finish who xs (replicate (length xs `min` length args) 1%nat) args ns
  = assign who xs args ns.
Proof.
  revert args ns. induction xs as [|x xs IH]; intros args ns Hxs Hargs.
  - unfold finish. simpl. rewrite app_nil_r. reflexivity.
  - simpl in Hxs. apply andb_true_iff in Hxs as [Hx Hxs].
    destruct args as [|a args].
    + unfold finish. simpl. rewrite omap_dest. reflexivity.
    + simpl in Hargs. apply andb_true_iff in Hargs as [Ha Hargs].
      specialize (IH args). unfold finish in *.
      cbn [length Nat.min replicate take_actions take drop sum_list assign].
      rewrite store_one by assumption.
      assert (Hn : match arg_nargs x, xs with
                   | nargs_plus, [] =>
                       obind (get_value_list who x (a :: args)) (fun vs =>
                       Ok (<[dest x := VList vs]> ns, []))
                   | _, _ =>
                       obind (get_value who x a) (fun v =>
                       assign who xs args (<[dest x := v]> ns))
                   end
                   = obind (get_value who x a) (fun v =>
                     assign who xs args (<[dest x := v]> ns))).
      { unfold is_nargs_None in Hx. destruct (arg_nargs x); try discriminate.
        reflexivity. }
      rewrite Hn.
      destruct (get_value who x a) as [v| | |]; cbn [obind]; try reflexivity.
      rewrite <- IH by assumption. reflexivity.
Qed.

Lemma finish_plus (x : argument) (args : list string) (ns : Namespace) :
  arg_nargs x = nargs_plus ->
  forallb positional args = true ->
  finish who [x] (match_arguments_partial [nargs_plus] (replicate (length args) pA))
    args ns
  = assign who [x] args ns.
Proof.
  intros Hx Hargs. rewrite match_partial_plus. unfold finish.
  destruct args as [|a args]; [reflexivity|].
  cbn [length take_actions]. rewrite take_ge by (simpl; lia).
  rewrite store_many by assumption.
  cbn [assign]. rewrite Hx.
  destruct (get_value_list who x (a :: args)) as [vs| | |]; cbn [obind]; try reflexivity.
  cbn [length sum_list].
  assert (Hd : drop (id (S (length args)) + 0) (a :: args) = [])
    by (apply drop_ge; unfold id; simpl; lia).
  rewrite Hd. reflexivity.
Qed.

(** On positional argument strings a sub-parser of a declared shape assigns
    the strings to its arguments in order. *)
Lemma assign_positional (xs : list argument) (args : list string) (ns : Namespace) :
  declared_shape xs = true ->
  forallb positional args = true ->
  parse_known_args_from who arg_nargs (fun a => Some (dest a)) (store who) ns xs args
  = assign who xs args ns.
Proof.
  intros Hshape Hargs. rewrite parse_known_args_from_positional by assumption.
  unfold declared_shape in Hshape. apply orb_true_iff in Hshape as [Hnone | Hplus].
  - assert (Hmap : map arg_nargs xs = replicate (length xs) nargs_None).
    { clear -Hnone. induction xs as [|x xs IH]; simpl in *; [reflexivity|].
      apply andb_true_iff in Hnone as [Hx Hxs]. rewrite IH by assumption.
      unfold is_nargs_None in Hx. destruct (arg_nargs x); try discriminate. reflexivity. }
    unfold match_arguments_partial. rewrite Hmap, length_replicate.
    rewrite match_partial_None by lia. apply finish_None; assumption.
  - destruct xs as [|x [|y xs]]; try discriminate.
    unfold is_nargs_plus in Hplus.
    destruct (arg_nargs x) eqn:Hx; try discriminate.
    simpl map. rewrite Hx. apply finish_plus; assumption.
Qed.

End sub_level.

(** *** Side conditions of the model *)


Lemma positional_negative_number : positional "-5" = true /\ positional "" = true.
Proof. split; reflexivity. Qed.

Lemma split_once_head (c d : ascii) (s : string) :
  c <> d ->
  split_once c (String d s) = (fun '(a, b) => (String d a, b)) <$> split_once c s.
Proof.
  intros H. simpl. destruct (Ascii.eqb_spec c d); [contradiction | reflexivity].
Qed.

(** At most one option tuple is found for an argument string of two or more
    characters that starts with the prefix character. *)
Lemma get_option_tuples_unambiguous (c : ascii) (s : string) :
  (length (get_option_tuples (String "-" (String c s))) <= 1)%nat.
Proof.
  unfold get_option_tuples, option_strings.
  destruct (Ascii.eqb_spec c "-") as [-> | Hc].
  - cbn [second_is_prefix_char].
    rewrite !split_once_head by discriminate.
    destruct (split_once "=" s) as [[p e]|]; cbn;
      match goal with |- context [if ?b then Some _ else None] => destruct b end;
      cbn; lia.
  - assert (Hsecond : second_is_prefix_char (String "-" (String c s)) = false).
    { simpl. destruct c as [[] [] [] [] [] [] [] []]; try reflexivity. congruence. }
    rewrite Hsecond. cbn [substring omap list_omap].
    assert (Hlong : String.prefix (String "-" (String c s)) "--help" = false).
    { simpl. destruct (ascii_dec c "-"); [contradiction | reflexivity]. }
    rewrite Hlong.
    assert (H0 : substring 0 0 s = "") by (destruct s; reflexivity).
    rewrite H0.
    rewrite (bool_decide_eq_false_2 ("--help" = _)) by (intros H; inversion H).
    repeat case_bool_decide; repeat case_match; cbn; lia.
Qed.

Section fuel.

Context {Action : Type}.
Variable parser : option string.
Variable nargs : Action -> nargs_kind.
Variable take_action :
  Action -> list string -> Namespace -> outcome (Namespace * list string).

Lemma span_length_le {A} (f : A -> bool) (l : list A) : (span_length f l <= length l)%nat.
Proof. induction l; simpl; [lia|]. destruct (f a); simpl; lia. Qed.

Lemma existsb_nonempty {A} (f : A -> bool) (l : list A) :
  existsb f l = true -> (0 < length l)%nat.
Proof. destruct l; simpl; [discriminate | lia]. Qed.

Lemma existsb_span {A} (f : A -> bool) (l : list A) :
  existsb f l = true ->
  exists x rest, drop (span_length (fun y => negb (f y)) l) l = x :: rest /\ f x = true.
Proof.
  induction l as [|a l IH]; simpl; [discriminate|].
  destruct (f a) eqn:Ha; simpl.
  - intros _. exists a, l. split; [reflexivity | assumption].
  - intros H. apply IH, H.
Qed.

(** The loop does not depend on the fuel once there is as much of it as
    there are argument strings: it never runs out. *)
Lemma interleave_fuel (fuel1 fuel2 : nat) (st : state (Action := Action))
    (toks : list (string * pattern_char)) :
  (length toks <= fuel1)%nat ->
  (length toks <= fuel2)%nat ->
  interleave parser nargs take_action fuel1 st toks
  = interleave parser nargs take_action fuel2 st toks.
Proof.
  revert fuel2 st toks. induction fuel1 as [|fuel1 IH]; intros fuel2 st toks H1 H2.
  - destruct toks; [|simpl in H1; lia]. destruct fuel2; reflexivity.
  - destruct (existsb (fun t : string * pattern_char => is_pO (snd t)) toks) eqn:Hopt.
    2: { destruct fuel2; simpl; rewrite Hopt; reflexivity. }
    pose proof (existsb_nonempty _ _ Hopt) as Hlen.
    destruct fuel2 as [|fuel2]; [lia|].
    cbn [interleave]. rewrite Hopt. cbn [negb].
    destruct (existsb_span _ _ Hopt) as ([s c] & rest & Hdrop & Hc).
    pose proof (span_length_le (fun t : string * pattern_char => negb (is_pO (snd t))) toks)
      as Hspan.
    assert (Hrest : (length rest < length toks)%nat).
    { apply (f_equal length) in Hdrop. rewrite length_drop in Hdrop. simpl in Hdrop. lia. }
    destruct (span_length _ toks) as [|k] eqn:Hk.
    + rewrite drop_0 in Hdrop. subst toks. simpl in Hc.
      destruct c as [|[opt e|a]|]; try discriminate Hc; [reflexivity|].
      apply IH; simpl in *; lia.
    + destruct (consume_positionals nargs take_action st toks) as [[st' n]| | |];
        cbn [obind]; try reflexivity.
      destruct n as [|n].
      * rewrite Hdrop. simpl in Hc.
        destruct c as [|[opt e|a]|]; try discriminate Hc; [reflexivity|].
        apply IH; lia.
      * apply IH; rewrite length_drop; lia.
Qed.

End fuel.

(** ** The builtin [int] *)

Module int_facts.
Import builtins.







Lemma skip_space_head (s : string) (c : ascii) (r : string) :
  skip_space s = String c r -> is_int_space c = false.
Proof.
  induction s as [|d s IH]; simpl; [discriminate|].
  destruct (is_int_space d) eqn:Hd; [assumption|].
  intros H. injection H as -> ->. exact Hd.
Qed.












Lemma more_digits_uint (d : Decimal.uint) (acc : Z) :
  more_digits acc (NilEmpty.string_of_uint d) = Some (uint_value acc d).
Proof.
  revert acc. induction d; intros acc; simpl; rewrite ?IHd; try reflexivity.
  all: f_equal; f_equal; unfold digit_value; simpl; lia.
Qed.



Lemma int_of_uint_string (d : Decimal.uint) :
  d <> Decimal.Nil ->
  unsigned_digits (NilEmpty.string_of_uint d) = Some (uint_value 0 d).
Proof.
  destruct d; intros H; try congruence; simpl; rewrite more_digits_uint; reflexivity.
Qed.


End int_facts.


(** ** The address validator *)


(** ** Resolution of command lines *)

Section resolution.

Variable isChecksumAddress : string -> bool.
Variable safe_operator : string -> list value -> result value.

Local Abbreviation registry := (subparsers isChecksumAddress).
Local Abbreviation resolve := (prompt_parser_parse_args isChecksumAddress).
Local Abbreviation run := (dispatch isChecksumAddress safe_operator).

Ltac each_subparser H :=
  unfold subparsers, arg_address, arg_int, arg_str in H;
  repeat (apply elem_of_cons in H as [-> | H]);
  [ .. | apply elem_of_nil in H; destruct H ].

(** Every registered command name is a positional argument string and names
    its own parser, and every parser has a declared shape. *)
Lemma registered (p : subparser) :
  p ∈ registry ->
  positional (name p) = true
  /\ name_parser_map registry (name p) = Some p
  /\ declared_shape (arguments p) = true.
Proof. intros H. each_subparser H; repeat split; reflexivity. Qed.

Lemma command_names_are_unique : NoDup (map name registry).
Proof. apply (bool_decide_unpack _). vm_compute. exact I. Qed.

(** On a registered command followed by positional argument tokens the parser
    assigns the tokens to the declared arguments, in order. *)
Lemma resolve_positionals (p : subparser) (args : list string) :
  p ∈ registry ->
  forallb positional args = true ->
  resolve (name p :: args) = parse_positionals p args.
Proof.
  intros Hp Hargs. destruct (registered p Hp) as (Hname & Hmap & Hshape).
  unfold prompt_parser_parse_args, parse_args.
  rewrite parse_known_args_positional_head by assumption.
  unfold subparsers_action. rewrite Hmap.
  unfold subparser_parse_known_args, parse_positionals.
  rewrite assign_positional by assumption.
  destruct (assign _ _ _ _) as [[ns argv]| | |]; cbn [obind]; try reflexivity.
  rewrite (right_id_L ∅ (∪)). reflexivity.
Qed.

Lemma get_value_str who d tn n a :
  get_value who (Argument d str_ tn n) a = Ok (VStr a).
Proof. reflexivity. Qed.

Lemma get_value_address who d tn n a :
  get_value who (Argument d (check_ethereum_address_ isChecksumAddress) tn n) a
  = if isChecksumAddress a then Ok (VStr a)
    else Error who (type_error d
           [AStr (a +:+ " is not a valid checksummed ethereum address")]).
Proof.
  unfold get_value, check_ethereum_address_, check_ethereum_address.
  cbn [type dest]. destruct (isChecksumAddress a); reflexivity.
Qed.

Lemma get_value_int who d tn n a :
  get_value who (Argument d int_ tn n) a
  = match builtins.int a with
    | Some z => Ok (VInt z)
    | None => Error who (invalid_value d tn a)
    end.
Proof.
  unfold get_value, int_. cbn [type dest type_name].
  destruct (builtins.int a); reflexivity.
Qed.

(** When parsing does not return a namespace, nothing is dispatched. *)
Lemma dispatch_error args who msg :
  resolve args = Error who msg -> run args = ([], Error who msg).
Proof. intros H. unfold dispatch. rewrite H. reflexivity. Qed.

(** Evaluation of [assign] on a declared argument list, by cases on the
    conversions. *)
Ltac step_assign :=
  repeat first
    [ rewrite get_value_str
    | rewrite get_value_address
    | rewrite get_value_int
    | progress cbn [assign obind arg_nargs dest map arguments name]
    | match goal with
      | H : isChecksumAddress ?a = _ |- context [isChecksumAddress ?a] => rewrite H
      | H : builtins.int ?a = _ |- context [builtins.int ?a] => rewrite H
      | |- context [if isChecksumAddress ?a then _ else _] =>
          destruct (isChecksumAddress a) eqn:?
      | |- context [match builtins.int ?a with _ => _ end] =>
          destruct (builtins.int a) eqn:?
      end ].

Lemma wrong_argument_count_not_parsed (p : subparser) (args : list string) :
  p ∈ registry ->
  forallb positional args = true ->
  satisfies_arity (arguments p) (length args) = false ->
  exists who msg, resolve (name p :: args) = Error who msg.
Proof.
  intros Hp Hargs Harity.
  rewrite (resolve_positionals _ _ Hp Hargs). clear Hargs.
  unfold parse_positionals.
  each_subparser Hp;
    destruct args as [|a [|b [|c [|d rest]]]];
    try discriminate Harity; clear Harity;
    step_assign; eauto.
Qed.

(** C4, amended: for every registered command and every line whose argument
    tokens are all read as positional arguments and whose number of argument
    tokens does not satisfy the declared arity, parsing ends in a usage error
    (the message of an [ArgumentError], exit status 2) and nothing is
    dispatched: no operator method is called and nothing is printed. *)
Theorem wrong_argument_count_fails (p : subparser) (args : list string) :
  p ∈ registry ->
  forallb positional args = true ->
  satisfies_arity (arguments p) (length args) = false ->
  exists who msg,
    resolve (name p :: args) = Error who msg
    /\ run (name p :: args) = ([], Error who msg).
Proof.
  intros Hp Hargs Harity.
  destruct (wrong_argument_count_not_parsed p args Hp Hargs Harity) as (who & msg & H).
  exists who, msg. split; [exact H | apply dispatch_error, H].
Qed.

Lemma first_invalid_address who d tn n (args : list string) (t : string) :
  t ∈ args ->
  isChecksumAddress t = false ->
  exists t', t' ∈ args /\ isChecksumAddress t' = false
    /\ get_value_list who (Argument d (check_ethereum_address_ isChecksumAddress) tn n) args
       = Error who (type_error d
           [AStr (t' +:+ " is not a valid checksummed ethereum address")]).
Proof.
  induction args as [|a args IH]; intros Hin Ht.
  - apply elem_of_nil in Hin. destruct Hin.
  - cbn [get_value_list]. rewrite get_value_address.
    destruct (isChecksumAddress a) eqn:Ha.
    + apply elem_of_cons in Hin as [-> | Hin]; [congruence|].
      destruct (IH Hin Ht) as (t' & Hin' & Ht' & Heq).
      exists t'. rewrite Heq. repeat split; [apply list_elem_of_further|]; assumption.
    + exists a. repeat split; [apply list_elem_of_here | assumption].
Qed.

Lemma invalid_address_not_parsed (p : subparser) (args : list string)
    (i : nat) (t : string) (x : argument) :
  p ∈ registry ->
  forallb positional args = true ->
  args !! i = Some t ->
  slot (arguments p) i = Some x ->
  type_name x = "check_ethereum_address" ->
  isChecksumAddress t = false ->
  exists d t',
    t' ∈ args /\ isChecksumAddress t' = false
    /\ resolve (name p :: args)
       = Error (Some (name p))
           (type_error d [AStr (t' +:+ " is not a valid checksummed ethereum address")]).
Proof.
  intros Hp Hargs Hi Hslot Htype Ht.
  rewrite (resolve_positionals _ _ Hp Hargs). clear Hargs.
  unfold parse_positionals.
  each_subparser Hp;
    destruct i as [|[|[|i]]]; cbn in Hslot; try discriminate Hslot;
    injection Hslot as <-; cbn in Htype; try discriminate Htype; clear Htype.
  all: try (apply list_elem_of_lookup_2 in Hi;
            destruct args as [|a args]; [apply elem_of_nil in Hi; destruct Hi|];
            cbn [assign arguments name arg_nargs];
            destruct (first_invalid_address (Some "unload_cli_owners") "addresses"
                        "check_ethereum_address" nargs_plus _ _ Hi Ht)
              as (t' & Hin & Ht' & Heq);
            exists "addresses", t'; rewrite Heq; repeat split; assumption).
  all: destruct args as [|a [|b rest]]; cbn in Hi; try discriminate Hi;
    injection Hi as ->; step_assign;
    eexists _, _; (split; [|split; [|reflexivity]]);
    first [ assumption | repeat constructor ].
Qed.

(** C5, amended: for every line whose argument tokens are all read as
    positional arguments and in which a token matched against an address
    argument fails address validation, parsing of the whole line is aborted
    with the validator's error, which carries an offending token, and nothing
    is dispatched: the handler is invoked zero times. *)
Theorem invalid_address_aborts (p : subparser) (args : list string)
    (i : nat) (t : string) (x : argument) :
  p ∈ registry ->
  forallb positional args = true ->
  args !! i = Some t ->
  slot (arguments p) i = Some x ->
  type_name x = "check_ethereum_address" ->
  isChecksumAddress t = false ->
  exists d t',
    t' ∈ args /\ isChecksumAddress t' = false
    /\ run (name p :: args)
       = ([], Error (Some (name p))
            (type_error d [AStr (t' +:+ " is not a valid checksummed ethereum address")])).
Proof.
  intros Hp Hargs Hi Hslot Htype Ht.
  destruct (invalid_address_not_parsed p args i t x Hp Hargs Hi Hslot Htype Ht)
    as (d & t' & Hin & Ht' & H).
  exists d, t'. repeat split; try assumption. apply dispatch_error, H.
Qed.

(** C6, amended: for every command token that is read as a positional
    argument (every token that does not begin with [-] is) and is absent from
    the registry, whatever follows it, parsing fails with the "invalid
    choice" usage error of the top-level parser, and nothing is dispatched. *)
Theorem unknown_command_fails (cmd : string) (rest : list string) :
  positional cmd = true ->
  cmd ∉ map name registry ->
  resolve (cmd :: rest) = Error None (invalid_choice cmd)
  /\ run (cmd :: rest) = ([], Error None (invalid_choice cmd)).
Proof.
  intros Hcmd Habsent.
  assert (H : resolve (cmd :: rest) = Error None (invalid_choice cmd)).
  { unfold prompt_parser_parse_args, parse_args.
    rewrite parse_known_args_positional_head by assumption.
    unfold subparsers_action. rewrite name_parser_map_None by assumption.
    reflexivity. }
  split; [exact H | apply dispatch_error, H].
Qed.




End resolution.

(** ** Runs with the web3 predicate and stub operators *)

Local Abbreviation is_checksum := web3.isChecksumAddress.
Local Abbreviation owner := "0x5aAeb6053F3E94C9b9A09f33669435E7Ef1BeAed".

Ltac in_registry :=
  unfold subparsers; repeat first [apply list_elem_of_here | apply list_elem_of_further].

(** Scenario 1: a valid address and an operator that succeeds: no message is
    emitted and the handler calls the operator once, with the address. *)
Example scenario_add_owner :
  dispatch is_checksum silent_operator ["add_owner"; owner]
  = ([OperatorCall "add_owner" [VStr owner]], Ok (Returned VNone)).
Proof. vm_compute. reflexivity. Qed.

(** Scenario 2: an invalid address is rejected before dispatch. *)
Example scenario_not_an_address :
  dispatch is_checksum silent_operator ["add_owner"; "notanaddress"]
  = ([], Error (Some "add_owner")
           (type_error "address"
              [AStr "notanaddress is not a valid checksummed ethereum address"])).
Proof. vm_compute. reflexivity. Qed.

(** Scenario 3: the operator reports a threshold above the owner count. *)
Example scenario_threshold :
  dispatch is_checksum (failing_operator (Exn ThresholdLimitException []))
    ["change_threshold"; "3"]
  = ([OperatorCall "change_threshold" [VInt 3];
      PrintFormattedText
        "<ansired>Having less owners than threshold is not allowed</ansired>"],
     Ok (Returned VNone)).
Proof. vm_compute. reflexivity. Qed.

(** Scenario 4: the operator reports an insufficient balance of 500. *)
Example scenario_send_ether :
  dispatch is_checksum (failing_operator (Exn NotEnoughEtherToSend [AInt 500]))
    ["send_ether"; owner; "1000000"]
  = ([OperatorCall "send_ether" [VStr owner; VInt 1000000];
      PrintFormattedText
        "<ansired>Cannot find enough to send. Current balance is 500</ansired>"],
     Ok (Returned VNone)).
Proof. vm_compute. reflexivity. Qed.

(** Scenario 5: an unknown command. *)
Example scenario_bogus_command :
  dispatch is_checksum silent_operator ["bogus_command"]
  = ([], Error None (invalid_choice "bogus_command")).
Proof. vm_compute. reflexivity. Qed.

(** The help flag, the separator and unknown flags. *)
Example help_flag :
  prompt_parser_parse_args is_checksum ["--help"] = Help None
  /\ prompt_parser_parse_args is_checksum ["send_ether"; owner; "-h"]
     = Help (Some "send_ether")
  /\ prompt_parser_parse_args is_checksum ["send_ether"; "notanaddress"; "-h"]
     = Error (Some "send_ether")
         (type_error "address"
            [AStr "notanaddress is not a valid checksummed ethereum address"])
  /\ prompt_parser_parse_args is_checksum ["get_nonce"; "-x"]
     = Error None (unrecognized_arguments ["-x"])
  /\ prompt_parser_parse_args is_checksum ["get_nonce"; "--"]
     = Error None (unrecognized_arguments ["--"])
  /\ prompt_parser_parse_args is_checksum ["add_owner"; "-x"]
     = Error (Some "add_owner") (required_arguments ["address"]).
Proof. vm_compute. repeat split. Qed.

Example empty_line :
  prompt_parser_parse_args is_checksum [] = Ok ∅.
Proof. vm_compute. reflexivity. Qed.

(** *** Instances of the theorems on resolution *)

Lemma wrong_argument_count_fails_witness :
  SubParser "send_ether"
    [arg_address is_checksum "address" nargs_None; arg_int "value" nargs_None] send_ether
    ∈ subparsers is_checksum
  /\ forallb positional [owner] = true
  /\ satisfies_arity
       [arg_address is_checksum "address" nargs_None; arg_int "value" nargs_None]
       (length [owner]) = false
  /\ exists who msg,
       prompt_parser_parse_args is_checksum ["send_ether"; owner] = Error who msg
       /\ dispatch is_checksum silent_operator ["send_ether"; owner] = ([], Error who msg).
Proof.
  split; [in_registry|]. split; [reflexivity|]. split; [reflexivity|].
  apply (wrong_argument_count_fails is_checksum silent_operator
           (SubParser "send_ether"
              [arg_address is_checksum "address" nargs_None; arg_int "value" nargs_None]
              send_ether) [owner]).
  - in_registry.
  - reflexivity.
  - reflexivity.
Defined.

Lemma invalid_address_aborts_witness :
  SubParser "add_owner" [arg_address is_checksum "address" nargs_None] add_owner
    ∈ subparsers is_checksum
  /\ forallb positional ["notanaddress"] = true
  /\ ["notanaddress"] !! 0%nat = Some "notanaddress"
  /\ slot [arg_address is_checksum "address" nargs_None] 0
     = Some (arg_address is_checksum "address" nargs_None)
  /\ type_name (arg_address is_checksum "address" nargs_None) = "check_ethereum_address"
  /\ is_checksum "notanaddress" = false
  /\ exists d t',
       t' ∈ ["notanaddress"] /\ is_checksum t' = false
       /\ dispatch is_checksum silent_operator ["add_owner"; "notanaddress"]
          = ([], Error (Some "add_owner")
               (type_error d
                  [AStr (t' +:+ " is not a valid checksummed ethereum address")])).
Proof.
  split; [in_registry|]. do 5 (split; [reflexivity|]).
  apply (invalid_address_aborts is_checksum silent_operator
           (SubParser "add_owner" [arg_address is_checksum "address" nargs_None] add_owner)
           ["notanaddress"] 0 "notanaddress"
           (arg_address is_checksum "address" nargs_None)).
  - in_registry.
  - reflexivity.
  - reflexivity.
  - reflexivity.
  - reflexivity.
  - reflexivity.
Defined.

Lemma unknown_command_fails_witness :
  positional "bogus_command" = true
  /\ ("bogus_command" ∉ map name (subparsers is_checksum))
  /\ prompt_parser_parse_args is_checksum ["bogus_command"; owner]
     = Error None (invalid_choice "bogus_command")
  /\ dispatch is_checksum silent_operator ["bogus_command"; owner]
     = ([], Error None (invalid_choice "bogus_command")).
Proof.
  split; [reflexivity|]. split; [compute_done|].
  apply (unknown_command_fails is_checksum silent_operator "bogus_command" [owner]).
  - reflexivity.
  - compute_done.
Defined.



(** *** Counterexamples to claims of the specification as they are stated *)

(** C4 as stated fails: with one argument token for the two arguments of
    [send_ether], the help flag makes the parser print the help and exit with
    status 0, which is no usage error; and [change_threshold] with the two
    argument tokens [--] and [3], for its one argument, is resolved and its
    handler is dispatched. *)
Lemma wrong_argument_count_counterexample :
  satisfies_arity
    [arg_address is_checksum "address" nargs_None; arg_int "value" nargs_None]
    (length ["-h"]) = false
  /\ dispatch is_checksum silent_operator ["send_ether"; "-h"]
     = ([], Help (Some "send_ether"))
  /\ satisfies_arity [arg_int "threshold" nargs_None] (length ["--"; "3"]) = false
  /\ dispatch is_checksum silent_operator ["change_threshold"; "--"; "3"]
     = ([OperatorCall "change_threshold" [VInt 3]], Ok (Returned VNone)).
Proof. vm_compute. repeat split. Qed.

(** C5 as stated fails: the argument token [-h] of [add_owner] fails address
    validation, but parsing ends with the help text and exit status 0, not
    with the validator's error; and the argument token [--] fails address
    validation, but the line [add_owner -- owner] is resolved and its handler
    is dispatched. *)
Lemma invalid_address_counterexample :
  is_checksum "-h" = false
  /\ slot [arg_address is_checksum "address" nargs_None] 0
     = Some (arg_address is_checksum "address" nargs_None)
  /\ dispatch is_checksum silent_operator ["add_owner"; "-h"]
     = ([], Help (Some "add_owner"))
  /\ is_checksum "--" = false
  /\ dispatch is_checksum silent_operator ["add_owner"; "--"; owner]
     = ([OperatorCall "add_owner" [VStr owner]], Ok (Returned VNone)).
Proof.
  split; [|split; [|split; [|split]]];
    [reflexivity | reflexivity | vm_compute; reflexivity | reflexivity
    | vm_compute; reflexivity].
Qed.

(** C6 as stated fails: the command token [-h] is absent from the registry,
    but the parser prints the help and exits with status 0 instead of failing
    with an unknown-command error. *)
Lemma unknown_command_counterexample :
  ("-h" ∉ map name (subparsers is_checksum))
  /\ dispatch is_checksum silent_operator ["-h"] = ([], Help None).
Proof. split; [compute_done | vm_compute; reflexivity]. Qed.

(** ** The wrapper: what it adds to a call *)



(** No class is named by two [except] clauses. *)
Lemma translated_classes_distinct : NoDup translated_classes.
Proof. apply (bool_decide_unpack _). vm_compute. exact I. Qed.


Lemma isinstance_elem (e : exn) (classes : list exception_class) :
  existsb (isinstance e) classes = true -> exc_class e ∈ classes.
Proof.
  induction classes as [|C classes IH]; [discriminate|]. cbn. unfold isinstance at 1.
  case_bool_decide as HC; [intros _; rewrite HC; apply list_elem_of_here|].
  intros H. apply list_elem_of_further, IH, H.
Qed.

Lemma select_clause_permutation
    (clauses clauses' : list (list exception_class * (exn -> Run unit))) (e : exn) :
  clauses ≡ₚ clauses' ->
  NoDup (flat_map fst clauses) ->
  select_clause clauses e = select_clause clauses' e.
Proof.
  induction 1 as [|[classes body] l l' Hp IH|[c1 b1] [c2 b2] l|l1 l2 l3 H12 IH12 H23 IH23];
    intros Hnd.
  - reflexivity.
  - cbn [select_clause]. cbn [flat_map fst] in Hnd.
    apply NoDup_app in Hnd as (_ & _ & Hnd). rewrite IH by exact Hnd. reflexivity.
  - cbn [select_clause].
    destruct (existsb (isinstance e) c1) eqn:H1; destruct (existsb (isinstance e) c2) eqn:H2;
      try reflexivity.
    exfalso. apply isinstance_elem in H1, H2.
    cbn [flat_map fst] in Hnd. apply NoDup_app in Hnd as (_ & Hdisj & _).
    apply (Hdisj (exc_class e) H2). apply elem_of_app. left. exact H1.
  - rewrite IH12 by exact Hnd. apply IH23.
    assert (Hperm : flat_map fst l1 ≡ₚ flat_map fst l2).
    { clear -H12. induction H12 as [|x l l' _ IH|x y l|l1 l2 l3 _ IH1 _ IH2]; cbn.
      - reflexivity.
      - rewrite IH. reflexivity.
      - rewrite !app_assoc. apply Permutation_app_tail, Permutation_app_comm.
      - rewrite IH1. exact IH2. }
    rewrite <- Hperm. exact Hnd.
Qed.

(** X2: the order of the [except] clauses does not matter: no class is named by
    two of them, so in whatever order the clauses are tried, the same body runs
    for an exception, or none. *)
Theorem clause_order_is_irrelevant
    (clauses : list (list exception_class * (exn -> Run unit))) (e : exn) :
  clauses ≡ₚ except_clauses ->
  select_clause clauses e = select_clause except_clauses e.
Proof.
  intros H. symmetry. apply select_clause_permutation; [symmetry; exact H|].
  apply translated_classes_distinct.
Qed.
(** * Further properties of the parser and the handlers *)

(** ** Lists *)

Lemma elem_of_list_map {A B} (f : A -> B) (l : list A) (y : B) :
  y ∈ map f l <-> exists x, y = f x /\ x ∈ l.
Proof.
  induction l as [|a l IH]; simpl.
  - split; [intros H; apply elem_of_nil in H; destruct H|].
    intros (x & _ & H). apply elem_of_nil in H. destruct H.
  - rewrite elem_of_cons, IH. split.
    + intros [-> | (x & -> & Hx)]; [exists a | exists x]; split; try reflexivity.
      * apply list_elem_of_here.
      * apply list_elem_of_further, Hx.
    + intros (x & -> & Hx). apply elem_of_cons in Hx as [-> | Hx]; [left | right]; eauto.
Qed.

Lemma elem_of_take_elem {A} (x : A) (n : nat) (l : list A) : x ∈ take n l -> x ∈ l.
Proof. intros (i & Hi & _)%elem_of_take. apply list_elem_of_lookup_2 with i, Hi. Qed.


(** ** The parsing loop *)

Lemma consume_help_not_Ok {A} (parser : option string) (option_string : string)
    (explicit_arg : option string) (a : A) :
  consume_help parser option_string explicit_arg <> Ok a.
Proof.
  unfold consume_help. destruct explicit_arg as [e|]; [|discriminate].
  destruct (second_is_prefix_char option_string); [discriminate|].
  induction e as [|c e IH]; simpl; [discriminate|].
  case_bool_decide; [|discriminate]. destruct e; [discriminate | exact IH].
Qed.

Lemma consume_help_not_Crash {A} (parser : option string) (option_string : string)
    (explicit_arg : option string) (e : exn) :
  consume_help (A := A) parser option_string explicit_arg <> Crash e.
Proof.
  unfold consume_help. destruct explicit_arg as [x|]; [|discriminate].
  destruct (second_is_prefix_char option_string); [discriminate|].
  induction x as [|c x IH]; simpl; [discriminate|].
  case_bool_decide; [|discriminate]. destruct x; [discriminate | exact IH].
Qed.

Section engine_facts.

Context {Action : Type}.
Variable parser : option string.
Variable nargs : Action -> nargs_kind.
Variable required_name : Action -> option string.
Variable take_action :
  Action -> list string -> Namespace -> outcome (Namespace * list string).

Local Abbreviation is_option := (fun t : string * pattern_char => is_pO (snd t)).

(** Rule induction on the loop: a property of the state and of the argument
    strings left that every turn of the loop keeps holds when the loop
    returns. *)
Section rule.

Variable P : state (Action := Action) -> list (string * pattern_char) -> Prop.

Hypothesis P_consume : forall st toks st' n,
  P st toks -> existsb is_option toks = true ->
  consume_positionals nargs take_action st toks = Ok (st', S n) ->
  P st' (drop (S n) toks).

Hypothesis P_skip : forall st toks st' k,
  P st toks -> existsb is_option toks = true ->
  span_length (fun t => negb (is_option t)) toks = S k ->
  consume_positionals nargs take_action st toks = Ok (st', O) ->
  P (State (namespace st') (positionals st')
       (extras st' ++ map fst (take (S k) toks)) (unrecognized st'))
    (drop (S k) toks).

Hypothesis P_unknown : forall st s a toks,
  P st ((s, pO (unknown_option a)) :: toks) ->
  P (State (namespace st) (positionals st) (extras st ++ [s]) (unrecognized st)) toks.

Lemma interleave_rule (fuel : nat) :
  forall st toks st' toks',
    P st toks ->
    interleave parser nargs take_action fuel st toks = Ok (st', toks') ->
    P st' toks'.
Proof.
  induction fuel as [|fuel IH]; intros st toks st' toks' HP H; simpl in H.
  - destruct (existsb _ toks); simpl in H; injection H as <- <-; exact HP.
  - destruct (existsb _ toks) eqn:Hopt; simpl in H; [|injection H as <- <-; exact HP].
    destruct (span_length _ toks) as [|k] eqn:Hk.
    + destruct toks as [|[s [|[o e|a]|]] toks]; try (injection H as <- <-; exact HP).
      * destruct (consume_help_not_Ok _ _ _ _ H).
      * apply IH in H; [exact H | exact (P_unknown _ _ _ _ HP)].
    + destruct (consume_positionals nargs take_action st toks) as [[st1 n]| | |] eqn:Hc;
        simpl in H; try discriminate.
      destruct n as [|n].
      * pose proof (P_skip _ _ _ _ HP Hopt Hk Hc) as HP1.
        destruct (drop (S k) toks) as [|[s [|[o e|a]|]] rest];
          try (injection H as <- <-; exact HP1).
        -- destruct (consume_help_not_Ok _ _ _ _ H).
        -- apply IH in H; [exact H | exact (P_unknown _ _ _ _ HP1)].
      * apply IH in H; [exact H | exact (P_consume _ _ _ _ HP Hopt Hc)].
Qed.

End rule.

(** With as much fuel as there are argument strings, the loop returns only
    when no option string is left. *)
Lemma interleave_exit (fuel : nat) :
  forall st toks st' toks',
    (length toks <= fuel)%nat ->
    interleave parser nargs take_action fuel st toks = Ok (st', toks') ->
    existsb is_option toks' = false.
Proof.
  induction fuel as [|fuel IH]; intros st toks st' toks' Hlen H.
  - destruct toks; [|simpl in Hlen; lia]. simpl in H. injection H as <- <-. reflexivity.
  - cbn [interleave] in H.
    destruct (existsb is_option toks) eqn:Hopt; cbn [negb] in H;
      [|injection H as <- <-; exact Hopt].
    destruct (existsb_span _ _ Hopt) as ([s c] & rest & Hdrop & Hc).
    pose proof (span_length_le (fun t : string * pattern_char => negb (is_pO (snd t))) toks)
      as Hspan.
    assert (Hrest : (length rest < length toks)%nat).
    { apply (f_equal length) in Hdrop. rewrite length_drop in Hdrop. simpl in Hdrop. lia. }
    destruct (span_length _ toks) as [|k] eqn:Hk.
    + rewrite drop_0 in Hdrop. subst toks. simpl in Hc.
      destruct c as [|[opt e|a]|]; try discriminate Hc.
      * destruct (consume_help_not_Ok _ _ _ _ H).
      * apply IH in H; [exact H | simpl in *; lia].
    + destruct (consume_positionals nargs take_action st toks) as [[st1 n]| | |];
        cbn [obind] in H; try discriminate.
      destruct n as [|n].
      * rewrite Hdrop in H. simpl in Hc.
        destruct c as [|[opt e|a]|]; try discriminate Hc.
        -- destruct (consume_help_not_Ok _ _ _ _ H).
        -- apply IH in H; [exact H | lia].
      * apply IH in H; [exact H | rewrite length_drop; lia].
Qed.

End engine_facts.

(** ** Sub-parsers: what a successful parse has stored *)

Section sub_facts.

Variable who : option string.

Lemma get_value_Ok (x : argument) (s : string) (v : value) :
  get_value who x s = Ok v -> type x s = Returned v.
Proof.
  unfold get_value. destruct (type x s) as [w|e]; [congruence|].
  repeat case_match; discriminate.
Qed.

Lemma get_value_list_Ok (x : argument) (strs : list string) (vs : list value) :
  get_value_list who x strs = Ok vs ->
  Forall2 (fun s w => type x s = Returned w) strs vs.
Proof.
  revert vs. induction strs as [|s strs IH]; intros vs H; simpl in H.
  - injection H as <-. constructor.
  - destruct (get_value who x s) as [v| | |] eqn:Hv; simpl in H; try discriminate.
    destruct (get_value_list who x strs) as [ws| | |]; simpl in H; try discriminate.
    injection H as <-. constructor; [apply get_value_Ok, Hv | apply IH; reflexivity].
Qed.

Lemma get_values_converted (x : argument) (strs : list string) (v : value) :
  get_values who x strs = Ok v -> converted x v.
Proof.
  unfold get_values. intros H.
  assert (Hlist : forall l, obind (get_value_list who x l) (fun vs => Ok (VList vs)) = Ok v ->
                            converted x v).
  { intros l Hl. destruct (get_value_list who x l) as [vs| | |] eqn:Hvs;
      simpl in Hl; try discriminate.
    injection Hl as <-. right. exists l, vs. split; [reflexivity|].
    apply get_value_list_Ok, Hvs. }
  destruct (arg_nargs x); try (apply Hlist in H; exact H).
  destruct (remove_dashdash strs) as [|s [|s' l]]; try (apply Hlist in H; exact H).
  left. exists s. apply get_value_Ok, H.
Qed.

Lemma store_Ok (x : argument) (strs : list string) (ns ns' : Namespace) (u : list string) :
  store who x strs ns = Ok (ns', u) ->
  u = [] /\ exists v, converted x v /\ ns' = <[dest x := v]> ns.
Proof.
  unfold store. destruct (get_values who x strs) as [v| | |] eqn:Hv; simpl; try discriminate.
  intros H. injection H as <- <-. split; [reflexivity|].
  exists v. split; [apply get_values_converted with strs, Hv | reflexivity].
Qed.

(** Taking the actions of the first arguments stores a converted value for
    each of them and leaves every other attribute as it was. *)
Lemma take_actions_store (acts : list argument) :
  forall (counts : list nat) (args : list string) (ns ns' : Namespace) (unrec u : list string),
    NoDup (map dest acts) ->
    take_actions (store who) acts counts args ns unrec = Ok (ns', u) ->
    u = unrec
    /\ (forall k, k ∉ map dest (take (length counts) acts) -> ns' !! k = ns !! k)
    /\ (forall x, x ∈ take (length counts) acts ->
                  exists v, ns' !! dest x = Some v /\ converted x v).
Proof.
  induction acts as [|x acts IH]; intros counts args ns ns' unrec u Hnd H.
  - simpl in H. injection H as <- <-. rewrite take_nil.
    split; [reflexivity|]. split; [reflexivity|].
    intros y Hy. apply elem_of_nil in Hy. destruct Hy.
  - destruct counts as [|c counts]; simpl in H.
    + injection H as <- <-. split; [reflexivity|]. split; [reflexivity|].
      intros y Hy. apply elem_of_nil in Hy. destruct Hy.
    + destruct (store who x (take c args) ns) as [[ns1 u1]| | |] eqn:Hs;
        simpl in H; try discriminate.
      apply store_Ok in Hs as (-> & v & Hv & ->).
      simpl in Hnd. apply NoDup_cons in Hnd as [Hx Hnd].
      apply IH in H as (-> & Hother & Hstored); [|exact Hnd].
      rewrite app_nil_r. split; [reflexivity|]. simpl. split.
      * intros k Hk. apply not_elem_of_cons in Hk as [Hk1 Hk2].
        rewrite Hother by exact Hk2. apply lookup_insert_ne. congruence.
      * intros y Hy. apply elem_of_cons in Hy as [-> | Hy]; [|apply Hstored, Hy].
        exists v. split; [|exact Hv]. rewrite Hother.
        -- apply lookup_insert_eq.
        -- intros Hin. apply Hx.
           apply elem_of_list_map in Hin as (y & Hy1 & Hy2).
           apply elem_of_list_map. exists y. split; [exact Hy1|].
           apply elem_of_take_elem in Hy2. exact Hy2.
Qed.

End sub_facts.

Section sub_parse.

Variable who : option string.
Variable xs : list argument.
Variable ns0 : Namespace.
Hypothesis dests_distinct : NoDup (map dest xs).

(** While the arguments [xs] are parsed into [ns0]: each argument taken so far
    holds a converted value, and no other attribute has changed. *)
Local Abbreviation stored_so_far ns pos unrec :=
  (unrec = []
   /\ (exists done, xs = done ++ pos
                    /\ forall x, x ∈ done -> exists v, ns !! dest x = Some v /\ converted x v)
   /\ (forall k, k ∉ map dest xs -> ns !! k = ns0 !! k)).

Lemma consume_positionals_stored (st st' : state) (toks : list (string * pattern_char))
    (n : nat) :
  stored_so_far (namespace st) (positionals st) (unrecognized st) ->
  consume_positionals arg_nargs (store who) st toks = Ok (st', n) ->
  stored_so_far (namespace st') (positionals st') (unrecognized st')
  /\ extras st' = extras st.
Proof.
  intros (Hu & (done & Hxs & Hdone) & Hother) H.
  unfold consume_positionals in H.
  set (counts := match_arguments_partial (map arg_nargs (positionals st)) (map snd toks)) in *.
  destruct (take_actions (store who) (positionals st) counts (map fst toks)
              (namespace st) (unrecognized st)) as [[ns1 u1]| | |] eqn:Ht;
    simpl in H; try discriminate.
  injection H as <- <-. simpl.
  assert (Hnd : NoDup (map dest (positionals st))).
  { rewrite Hxs, map_app in dests_distinct. apply NoDup_app in dests_distinct. tauto. }
  apply take_actions_store in Ht as (-> & Hkeep & Hnew); [|exact Hnd].
  split; [|reflexivity]. split; [exact Hu|]. split.
  - exists (done ++ take (length counts) (positionals st)). split.
    + rewrite <- app_assoc, take_drop. exact Hxs.
    + intros x Hx. apply elem_of_app in Hx as [Hx | Hx]; [|apply Hnew, Hx].
      destruct (Hdone x Hx) as (v & Hv & Hc). exists v. split; [|exact Hc].
      rewrite Hkeep; [exact Hv|]. intros Hin.
      rewrite Hxs, map_app in dests_distinct.
      apply NoDup_app in dests_distinct as (_ & Hdisj & _).
      apply (Hdisj (dest x)).
      * apply elem_of_list_map. eauto.
      * apply elem_of_list_map in Hin as (y & Hy1 & Hy2).
        apply elem_of_list_map. exists y. split; [exact Hy1|].
        apply elem_of_take_elem in Hy2. exact Hy2.
  - intros k Hk. rewrite Hkeep; [apply Hother, Hk|].
    intros Hin. apply Hk. rewrite Hxs, map_app. apply elem_of_app. right.
    apply elem_of_list_map in Hin as (y & Hy1 & Hy2).
    apply elem_of_list_map. exists y. split; [exact Hy1|].
    apply elem_of_take_elem in Hy2. exact Hy2.
Qed.

(** A sub-parser that returns a namespace has stored a converted value for
    each of its arguments and has changed no other attribute; the argument
    strings it hands back are its extras. *)
Lemma sub_parse_stored (args : list string) (ns' : Namespace) (argv : list string) :
  parse_known_args_from who arg_nargs (fun a => Some (dest a)) (store who) ns0 xs args
  = Ok (ns', argv) ->
  (forall x, x ∈ xs -> exists v, ns' !! dest x = Some v /\ converted x v)
  /\ (forall k, k ∉ map dest xs -> ns' !! k = ns0 !! k).
Proof.
  unfold parse_known_args_from. intros H.
  destruct (interleave who arg_nargs (store who) (length (classify args))
              (State ns0 xs [] []) (classify args)) as [[st toks]| | |] eqn:Hloop;
    simpl in H; try discriminate.
  assert (Hst : stored_so_far (namespace st) (positionals st) (unrecognized st)).
  { apply (interleave_rule who arg_nargs (store who)
             (fun st _ => stored_so_far (namespace st) (positionals st) (unrecognized st)))
      in Hloop; [exact Hloop | | | | ].
    - intros st1 toks1 st2 n HP _ Hc. eapply consume_positionals_stored; eauto.
    - intros st1 toks1 st2 k HP _ _ Hc. simpl.
      eapply consume_positionals_stored; eauto.
    - intros st1 s a toks1 HP. exact HP.
    - simpl. split; [reflexivity|]. split; [|reflexivity].
      exists []. split; [reflexivity|]. intros x Hx. apply elem_of_nil in Hx. destruct Hx. }
  destruct (consume_positionals arg_nargs (store who) st toks) as [[st' stop]| | |] eqn:Hc;
    simpl in H; try discriminate.
  apply consume_positionals_stored in Hc as [(Hu & (done & Hxs & Hdone) & Hother) _];
    [|exact Hst].
  destruct (positionals st') as [|y pos]; [|simpl in H; discriminate].
  simpl in H. injection H as <- <-.
  rewrite app_nil_r in Hxs. subst done. split; assumption.
Qed.

End sub_parse.

(** ** The top-level parser: which lines are resolved *)

Lemma name_parser_map_Some (parsers : list subparser) (parser_name : string)
    (p : subparser) :
  name_parser_map parsers parser_name = Some p -> p ∈ parsers /\ name p = parser_name.
Proof.
  induction parsers as [|q parsers IH]; simpl; [discriminate|].
  destruct (name_parser_map parsers parser_name) as [r|].
  - intros H. injection H as ->. destruct (IH eq_refl) as [Hin Hname].
    split; [apply list_elem_of_further, Hin | exact Hname].
  - case_bool_decide as Hq; [|discriminate]. intros H. injection H as ->.
    split; [apply list_elem_of_here | exact Hq].
Qed.

Section loop_extras.

Context {Action : Type}.
Variable parser : option string.
Variable nargs : Action -> nargs_kind.
Variable take_action :
  Action -> list string -> Namespace -> outcome (Namespace * list string).

Lemma consume_positionals_extras (st st' : state (Action := Action))
    (toks : list (string * pattern_char)) (n : nat) :
  consume_positionals nargs take_action st toks = Ok (st', n) -> extras st' = extras st.
Proof.
  unfold consume_positionals.
  destruct (take_actions _ _ _ _ _ _) as [[ns u]| | |]; simpl; try discriminate.
  intros H. injection H as <- <-. reflexivity.
Qed.

(** The loop only adds to the extras. *)
Lemma interleave_extras (fuel : nat) (st st' : state (Action := Action))
    (toks toks' : list (string * pattern_char)) :
  interleave parser nargs take_action fuel st toks = Ok (st', toks') ->
  exists more, extras st' = extras st ++ more.
Proof.
  intros H.
  apply (interleave_rule parser nargs take_action
           (fun st1 _ => exists more, extras st1 = extras st ++ more)) in H; [exact H | | | |].
  - intros st1 toks1 st2 n [more Hm] _ Hc.
    apply consume_positionals_extras in Hc. exists more. congruence.
  - intros st1 toks1 st2 k [more Hm] _ _ Hc.
    apply consume_positionals_extras in Hc. simpl.
    eexists. rewrite Hc, Hm, <- app_assoc. reflexivity.
  - intros st1 s a toks1 [more Hm]. simpl.
    eexists. rewrite Hm, <- app_assoc. reflexivity.
  - exists []. rewrite app_nil_r. reflexivity.
Qed.

(** Extras that the loop starts with are handed back. *)
Lemma parse_known_args_from_extras (required_name : Action -> option string)
    (fuel : nat) (st0 : state (Action := Action)) (toks : list (string * pattern_char))
    (e : string) :
  extras st0 = [e] ->
  forall ns argv,
    obind (interleave parser nargs take_action fuel st0 toks) (fun '(st, toks') =>
    obind (consume_positionals nargs take_action st toks') (fun '(st', stop) =>
    let extras' := extras st' ++ map fst (drop stop toks') in
    match omap required_name (positionals st') with
    | [] => Ok (namespace st', extras' ++ unrecognized st')
    | names => Error parser (required_arguments names)
    end)) = Ok (ns, argv) ->
    argv <> [].
Proof.
  intros He ns argv H.
  destruct (interleave _ _ _ _ _ _) as [[st toks']| | |] eqn:Hloop; simpl in H;
    try discriminate.
  apply interleave_extras in Hloop as [more Hmore].
  destruct (consume_positionals _ _ _ _) as [[st' stop]| | |] eqn:Hc; simpl in H;
    try discriminate.
  apply consume_positionals_extras in Hc.
  destruct (omap required_name (positionals st')); [|discriminate].
  injection H as <- <-. rewrite Hc, Hmore, He. discriminate.
Qed.

End loop_extras.

Lemma match_PARSER_dash (l : list pattern_char) :
  match_arguments_partial [nargs_PARSER] (pDash :: pA :: l) = [S (S (length l))].
Proof.
  unfold match_arguments_partial. simpl.
  rewrite (span_length_all (in_tail_class nargs_PARSER)) by (intros []; reflexivity).
  destruct (length l) eqn:E; reflexivity.
Qed.

Section resolved_lines.

Variable parsers : list subparser.
Hypothesis separator_is_no_name : "--" ∉ map name parsers.

(** A line is resolved only if it is empty, or if it begins with the name of
    a parser, read as a positional argument, and that parser accepts every
    string after the name. *)
Lemma parse_args_Ok (args : list string) (ns : Namespace) :
  parse_args parsers args = Ok ns ->
  (args = [] /\ ns = ∅)
  \/ exists p rest,
       args = name p :: rest /\ p ∈ parsers /\ positional (name p) = true
       /\ name_parser_map parsers (name p) = Some p
       /\ subparser_parse_known_args p rest = Ok (ns, []).
Proof.
  intros H. destruct args as [|t rest].
  - left. split; [reflexivity|]. vm_compute in H. injection H as <-. reflexivity.
  - right. destruct (positional t) eqn:Ht.
    + unfold parse_args in H.
      rewrite parse_known_args_positional_head in H by exact Ht.
      unfold subparsers_action in H.
      destruct (name_parser_map parsers t) as [p|] eqn:Hp; [|discriminate].
      destruct (name_parser_map_Some _ _ _ Hp) as [Hin <-].
      destruct (subparser_parse_known_args p rest) as [[sub argv]| | |] eqn:Hsub;
        simpl in H; try discriminate.
      destruct argv; [|discriminate]. injection H as <-.
      exists p, rest. rewrite (right_id_L ∅ (∪)). repeat split; assumption.
    + exfalso. unfold parse_args, parse_known_args, parse_known_args_from in H.
      unfold positional in Ht. simpl classify in H.
      case_bool_decide as Hd.
      * subst t. destruct rest as [|a rest].
        -- vm_compute in H. discriminate.
        -- revert H. simpl map.
           rewrite interleave_no_option by apply (no_option_among_positionals (a :: rest)).
           cbn [obind]. unfold consume_positionals.
           cbn [positionals namespace unrecognized extras map fst snd].
           rewrite match_PARSER_dash. cbn [take_actions].
           assert (Htake : take (S (S (length (map snd (map (fun a0 : string => (a0, pA)) rest)))))
                             ("--" :: a :: map fst (map (fun a0 : string => (a0, pA)) rest))
                           = "--" :: a :: rest).
           { rewrite map_fst_pA. apply take_ge. rewrite !length_map. simpl. lia. }
           rewrite Htake. unfold subparsers_action.
           rewrite name_parser_map_None by exact separator_is_no_name.
           discriminate.
      * simpl in Ht. destruct (parse_optional t) as [[o e|a]|] eqn:Ho; [| |discriminate].
        -- simpl in H. revert H.
           destruct (consume_help None o e) as [[st toks]| | |] eqn:Hh; try discriminate.
           destruct (consume_help_not_Ok _ _ _ _ Hh).
        -- cbn [length interleave existsb snd is_pO orb negb span_length] in H.
           match type of H with
           | obind ?m _ = _ => destruct m as [[ns1 argv]| | |] eqn:Hin
           end; simpl in H; try discriminate.
           pose proof (fun He => parse_known_args_from_extras _ _ _ _ _ _ _ t He _ _ Hin)
             as Hne.
           specialize (Hne eq_refl). destruct argv; [congruence | discriminate].
Qed.

End resolved_lines.

(** ** The pattern matcher *)

(** The match of a first group: leading dashes, one positional, and a tail
    no longer than the run of characters that the group admits. *)
Lemma match_groups_cons (g : nargs_kind) (gs : list nargs_kind)
    (pattern : list pattern_char) (counts : list nat) :
  match_groups (g :: gs) pattern = Some counts ->
  exists rest n counts',
    drop (span_length is_pDash pattern) pattern = pA :: rest
    /\ (n <= span_length (in_tail_class g) rest)%nat
    /\ match_groups gs (drop n rest) = Some counts'
    /\ counts = (span_length is_pDash pattern + 1 + n)%nat :: counts'.
Proof.
  cbn [match_groups].
  destruct (drop (span_length is_pDash pattern) pattern) as [|[|t|] rest]; try discriminate.
  intros H. exists rest. revert H.
  generalize (span_length (in_tail_class g) rest) as n0.
  induction n0 as [|n0 IH].
  - destruct (match_groups gs (drop 0 rest)) as [c|] eqn:Hm; [|discriminate].
    intros H. injection H as <-. exists O, c.
    split; [reflexivity|]. split; [lia|]. split; [exact Hm | reflexivity].
  - destruct (match_groups gs (drop (S n0) rest)) as [c|] eqn:Hm.
    + intros H. injection H as <-. exists (S n0), c.
      split; [reflexivity|]. split; [lia|]. split; [exact Hm | reflexivity].
    + intros H. destruct (IH H) as (n & c & _ & Hn & Hm' & Hc).
      exists n, c.
      split; [reflexivity|]. split; [lia|]. split; [exact Hm' | exact Hc].
Qed.

Lemma span_length_take {A} (f : A -> bool) (l : list A) (n : nat) :
  (n <= span_length f l)%nat -> forallb f (take n l) = true.
Proof.
  revert n. induction l as [|a l IH]; intros [|n] Hn; simpl in *; try reflexivity; try lia.
  destruct (f a); simpl in *; [apply IH; lia | lia].
Qed.

(** A match has one count for each group, every count is positive, and the
    counts do not exceed the pattern. *)
Lemma match_groups_bounds (gs : list nargs_kind) :
  forall (pattern : list pattern_char) (counts : list nat),
    match_groups gs pattern = Some counts ->
    Forall (fun c => (1 <= c)%nat) counts /\ (sum_list counts <= length pattern)%nat.
Proof.
  induction gs as [|g gs IH]; intros pattern counts H.
  - simpl in H. injection H as <-. split; [constructor | simpl; lia].
  - apply match_groups_cons in H as (rest & n & c & Hr & Hn & Hm & ->).
    apply IH in Hm as [Hpos Hsum]. split; [constructor; [cbv beta; lia | exact Hpos]|].
    apply (f_equal length) in Hr. rewrite length_drop in Hr.
    rewrite length_drop in Hsum. cbn [length sum_list] in *.
    pose proof (span_length_le (in_tail_class g) rest).
    pose proof (span_length_le is_pDash pattern).
    set (total := sum_list c) in *. unfold id. lia.
Qed.

(** Groups other than that of the sub-parsers action match no option
    string. *)
Lemma match_groups_no_option (gs : list nargs_kind) :
  forall (pattern : list pattern_char) (counts : list nat),
    Forall (fun g => g <> nargs_PARSER) gs ->
    match_groups gs pattern = Some counts ->
    existsb is_pO (take (sum_list counts) pattern) = false.
Proof.
  induction gs as [|g gs IH]; intros pattern counts Hgs H.
  - simpl in H. injection H as <-. reflexivity.
  - apply match_groups_cons in H as (rest & n & c & Hr & Hn & Hm & ->).
    apply Forall_cons in Hgs as [Hg Hgs].
    apply (IH _ _ Hgs) in Hm.
    set (d := span_length is_pDash pattern) in *.
    rewrite <- (take_drop d pattern) at 1.
    pose proof (span_length_le is_pDash pattern) as Hd.
    assert (Hlen : length (take d pattern) = d) by (rewrite length_take; fold d; lia).
    cbn [sum_list]. change (id (d + 1 + n)%nat) with (d + 1 + n)%nat.
    replace (d + 1 + n + sum_list c)%nat with (length (take d pattern) + (1 + n + sum_list c))%nat
      by lia.
    rewrite take_app_add, existsb_app, Hr. cbn [take Nat.add existsb is_pO orb].
    rewrite <- (take_drop n rest) at 1.
    assert (Hn' : length (take n rest) = n).
    { rewrite length_take. pose proof (span_length_le (in_tail_class g) rest). lia. }
    rewrite <- Hn' at 1. rewrite take_app_add, existsb_app, Hm, orb_false_r.
    apply orb_false_iff. split.
    + assert (Hall : forallb is_pDash (take d pattern) = true)
        by (apply span_length_take; unfold d; lia).
      clear -Hall. induction (take d pattern) as [|a l IHl]; [reflexivity|].
      simpl in *. apply andb_true_iff in Hall as [Ha Hl].
      destruct a; try discriminate. simpl. apply IHl, Hl.
    + assert (Hall : forallb (in_tail_class g) (take n rest) = true)
        by (apply span_length_take; exact Hn).
      clear -Hall Hg. induction (take n rest) as [|a l IHl]; [reflexivity|].
      simpl in *. apply andb_true_iff in Hall as [Ha Hl].
      rewrite IHl by exact Hl. destruct g, a; try discriminate; try reflexivity; congruence.
Qed.

(** A partial match is empty or the match of some leading groups. *)
Lemma match_arguments_partial_cases (gs : list nargs_kind) (pattern : list pattern_char) :
  match_arguments_partial gs pattern = []
  \/ exists i, match_groups (take i gs) pattern
               = Some (match_arguments_partial gs pattern).
Proof.
  unfold match_arguments_partial. generalize (length gs) as i.
  induction i as [|i IH]; [left; reflexivity|].
  cbn [match_arguments_partial_from].
  destruct (match_groups (take (S i) gs) pattern) as [c|] eqn:Hm; [|exact IH].
  right. exists (S i). exact Hm.
Qed.

Section loop_facts.

Context {Action : Type}.
Variable parser : option string.
Variable nargs : Action -> nargs_kind.
Variable required_name : Action -> option string.
Variable take_action :
  Action -> list string -> Namespace -> outcome (Namespace * list string).

Local Abbreviation is_option := (fun t : string * pattern_char => is_pO (snd t)).

Lemma consume_positionals_Ok (st st' : state (Action := Action))
    (toks : list (string * pattern_char)) (n : nat) :
  consume_positionals nargs take_action st toks = Ok (st', n) ->
  let counts := match_arguments_partial (map nargs (positionals st)) (map snd toks) in
  positionals st' = drop (length counts) (positionals st)
  /\ extras st' = extras st
  /\ n = sum_list counts.
Proof.
  unfold consume_positionals.
  destruct (take_actions _ _ _ _ _ _) as [[ns u]| | |]; simpl; try discriminate.
  intros H. injection H as <- <-. repeat split.
Qed.

Lemma existsb_take_drop {A} (f : A -> bool) (n : nat) (l : list A) :
  existsb f l = existsb f (take n l) || existsb f (drop n l).
Proof. rewrite <- (take_drop n l) at 1. apply existsb_app. Qed.

Lemma existsb_map {A B} (f : B -> bool) (g : A -> B) (l : list A) :
  existsb f (map g l) = existsb (fun a => f (g a)) l.
Proof. induction l as [|a l IH]; simpl; [|rewrite IH]; reflexivity. Qed.

(** Positionals other than the sub-parsers action consume no option
    string. *)
Lemma consume_positionals_no_option (st st' : state (Action := Action))
    (toks : list (string * pattern_char)) (n : nat) :
  Forall (fun a => nargs a <> nargs_PARSER) (positionals st) ->
  consume_positionals nargs take_action st toks = Ok (st', n) ->
  existsb is_option (drop n toks) = existsb is_option toks.
Proof.
  intros Hpos H. apply consume_positionals_Ok in H as (_ & _ & ->).
  destruct (match_arguments_partial_cases (map nargs (positionals st)) (map snd toks))
    as [-> | [i Hm]]; [reflexivity|].
  apply match_groups_no_option in Hm.
  - rewrite (existsb_take_drop is_option (sum_list
      (match_arguments_partial (map nargs (positionals st)) (map snd toks))) toks).
    rewrite firstn_map, existsb_map in Hm. rewrite Hm. reflexivity.
  - rewrite firstn_map. apply Forall_forall. intros g Hg.
    apply elem_of_list_map in Hg as (a & -> & Ha).
    apply elem_of_take_elem in Ha.
    rewrite Forall_forall in Hpos. apply Hpos, Ha.
Qed.

(** A parser without a sub-parsers action hands back, among its extras,
    something for every line that holds an option string. *)
Lemma option_string_gives_extras (ns0 : Namespace) (actions : list Action)
    (args : list string) (ns : Namespace) (argv : list string) :
  Forall (fun a => nargs a <> nargs_PARSER) actions ->
  existsb is_option (classify args) = true ->
  parse_known_args_from parser nargs required_name take_action ns0 actions args
  = Ok (ns, argv) ->
  argv <> [].
Proof.
  intros Hacts Hopt H. unfold parse_known_args_from in H.
  destruct (interleave parser nargs take_action (length (classify args))
              (State ns0 actions [] []) (classify args)) as [[st toks]| | |] eqn:Hloop;
    simpl in H; try discriminate.
  pose proof (interleave_exit _ _ _ _ _ _ _ _ (le_n _) Hloop) as Hexit.
  apply (interleave_rule parser nargs take_action
           (fun st toks =>
              Forall (fun a => nargs a <> nargs_PARSER) (positionals st)
              /\ (existsb is_option toks = true \/ extras st <> []))) in Hloop.
  - destruct Hloop as [_ [Hl | Hl]]; [congruence|].
    destruct (consume_positionals nargs take_action st toks) as [[st' stop]| | |] eqn:Hc;
      simpl in H; try discriminate.
    apply consume_positionals_extras in Hc.
    destruct (omap required_name (positionals st')); [|discriminate].
    injection H as <- <-. rewrite Hc. destruct (extras st); [congruence | discriminate].
  - intros st1 toks1 st2 n [Hpos Hor] Ho Hc. split.
    + apply consume_positionals_Ok in Hc as (-> & _ & _). apply Forall_drop, Hpos.
    + left. rewrite (consume_positionals_no_option _ _ _ _ Hpos Hc). exact Ho.
  - intros st1 toks1 st2 k [Hpos Hor] Ho Hk Hc. simpl. split.
    + apply consume_positionals_Ok in Hc as (-> & _ & _). apply Forall_drop, Hpos.
    + right. destruct toks1 as [|t toks1]; [discriminate|].
      simpl. destruct (extras st2); discriminate.
  - intros st1 s a toks1 [Hpos Hor]. simpl. split; [exact Hpos|].
    right. destruct (extras st1); discriminate.
  - simpl. split; [exact Hacts | left; exact Hopt].
Qed.

(** *** No uncaught exception *)

Section no_crash.

Variable well_behaved : Action -> Prop.
Hypothesis take_action_no_crash : forall a strs ns e,
  well_behaved a -> strs <> [] -> take_action a strs ns <> Crash e.

Lemma take_actions_no_crash (acts : list Action) :
  forall (counts : list nat) (args : list string) (ns : Namespace) (unrec : list string)
         (e : exn),
    Forall well_behaved acts ->
    Forall (fun c => (1 <= c)%nat) counts ->
    (sum_list counts <= length args)%nat ->
    take_actions take_action acts counts args ns unrec <> Crash e.
Proof.
  induction acts as [|a acts IH]; intros counts args ns unrec e Hacts Hpos Hsum;
    [discriminate|].
  destruct counts as [|c counts]; [discriminate|]. cbn [take_actions].
  apply Forall_cons in Hacts as [Ha Hacts]. apply Forall_cons in Hpos as [Hc Hpos].
  cbn [sum_list] in Hsum. set (total := sum_list counts) in *. unfold id in Hsum.
  destruct (take_action a (take c args) ns) as [[ns1 u]|p m|p|e1] eqn:Ht;
    cbn [obind]; try discriminate.
  - apply IH; [exact Hacts | exact Hpos | rewrite length_drop; fold total; lia].
  - exfalso. apply (take_action_no_crash a (take c args) ns e1 Ha); [|exact Ht].
    destruct args; [simpl in Hsum; lia|]. destruct c; [lia | discriminate].
Qed.

Lemma consume_positionals_no_crash (st : state (Action := Action))
    (toks : list (string * pattern_char)) (e : exn) :
  Forall well_behaved (positionals st) ->
  consume_positionals nargs take_action st toks <> Crash e.
Proof.
  intros Hpos. unfold consume_positionals.
  destruct (take_actions take_action (positionals st) _ (map fst toks) (namespace st)
              (unrecognized st)) as [[ns u]|p m|p|e1] eqn:Ht; try discriminate.
  exfalso. revert Ht.
  destruct (match_arguments_partial_cases (map nargs (positionals st)) (map snd toks))
    as [-> | [i Hm]].
  - destruct (positionals st); discriminate.
  - apply match_groups_bounds in Hm as [Hc Hsum].
    apply take_actions_no_crash; [exact Hpos | exact Hc|].
    rewrite length_map in *. exact Hsum.
Qed.

Lemma interleave_no_crash (fuel : nat) :
  forall (st : state (Action := Action)) (toks : list (string * pattern_char)) (e : exn),
    Forall well_behaved (positionals st) ->
    interleave parser nargs take_action fuel st toks <> Crash e.
Proof.
  induction fuel as [|fuel IH]; intros st toks e Hpos; simpl.
  - destruct (existsb _ toks); discriminate.
  - destruct (existsb _ toks); simpl; [|discriminate].
    destruct (span_length _ toks) as [|k].
    + destruct toks as [|[s [|[o x|a]|]] toks]; try discriminate.
      * apply consume_help_not_Crash.
      * apply IH. exact Hpos.
    + destruct (consume_positionals nargs take_action st toks) as [[st1 n]|p m|p|e1] eqn:Hc;
        simpl; try discriminate.
      * assert (Hpos1 : Forall well_behaved (positionals st1)).
        { apply consume_positionals_Ok in Hc as (-> & _ & _). apply Forall_drop, Hpos. }
        destruct n as [|n]; [|apply IH, Hpos1].
        destruct (drop (S k) toks) as [|[s [|[o x|a]|]] rest]; try discriminate.
        -- apply consume_help_not_Crash.
        -- apply IH. exact Hpos1.
      * destruct (consume_positionals_no_crash st toks e1 Hpos Hc).
Qed.

Lemma parse_known_args_from_no_crash (ns0 : Namespace) (actions : list Action)
    (args : list string) (e : exn) :
  Forall well_behaved actions ->
  parse_known_args_from parser nargs required_name take_action ns0 actions args
  <> Crash e.
Proof.
  intros Hacts. unfold parse_known_args_from.
  destruct (interleave parser nargs take_action (length (classify args))
              (State ns0 actions [] []) (classify args)) as [[st toks]|p m|p|e1] eqn:Hloop;
    simpl; try discriminate.
  - assert (Hpos : Forall well_behaved (positionals st)).
    { apply (interleave_rule parser nargs take_action
               (fun st _ => Forall well_behaved (positionals st))) in Hloop;
        [exact Hloop | | | |exact Hacts].
      - intros st1 toks1 st2 n Hpos _ Hc.
        apply consume_positionals_Ok in Hc as (-> & _ & _). apply Forall_drop, Hpos.
      - intros st1 toks1 st2 k Hpos _ _ Hc. simpl.
        apply consume_positionals_Ok in Hc as (-> & _ & _). apply Forall_drop, Hpos.
      - intros st1 s a toks1 Hpos. exact Hpos. }
    destruct (consume_positionals nargs take_action st toks) as [[st' stop]|p m|p|e1] eqn:Hc;
      simpl; try discriminate.
    + destruct (omap required_name (positionals st')); discriminate.
    + destruct (consume_positionals_no_crash st toks e1 Hpos Hc).
  - destruct (interleave_no_crash _ (State ns0 actions [] []) _ e1 Hacts Hloop).
Qed.

End no_crash.

End loop_facts.

(** ** Integers rendered by [str] *)






(** ** The separator *)

(** A dash before the pattern is taken by the first group. *)
Lemma match_groups_dash (g : nargs_kind) (gs : list nargs_kind)
    (pattern : list pattern_char) :
  match_groups (g :: gs) (pDash :: pattern)
  = match match_groups (g :: gs) pattern with
    | Some (c :: cs) => Some (S c :: cs)
    | _ => None
    end.
Proof.
  cbn [match_groups span_length is_pDash drop].
  destruct (drop (span_length is_pDash pattern) pattern) as [|[|t|] rest]; try reflexivity.
  generalize (span_length (in_tail_class g) rest) as n0.
  induction n0 as [|n0 IH].
  - destruct (match_groups gs (drop 0 rest)); reflexivity.
  - destruct (match_groups gs (drop (S n0) rest)); [reflexivity | exact IH].
Qed.

Lemma match_partial_from_dash (gs : list nargs_kind) (pattern : list pattern_char)
    (c : nat) (cs : list nat) (i : nat) :
  match_arguments_partial_from i gs pattern = c :: cs ->
  match_arguments_partial_from i gs (pDash :: pattern) = S c :: cs.
Proof.
  induction i as [|i IH]; [discriminate|]. cbn [match_arguments_partial_from].
  destruct gs as [|g gs]; [discriminate|]. cbn [take].
  rewrite match_groups_dash.
  destruct (match_groups (g :: take i gs) pattern) as [[|c' cs']|]; [discriminate| |exact IH].
  intros H. injection H as -> ->. reflexivity.
Qed.

Section separator.

Variable who : option string.

Lemma store_after_separator (x : argument) (strs : list string) (ns : Namespace) :
  forallb positional strs = true ->
  store who x ("--" :: strs) ns = store who x strs ns.
Proof.
  intros H. unfold store, get_values. cbn [remove_dashdash].
  rewrite bool_decide_eq_true_2 by reflexivity.
  rewrite remove_dashdash_positional by exact H. reflexivity.
Qed.

Lemma forallb_take {A} (f : A -> bool) (n : nat) (l : list A) :
  forallb f l = true -> forallb f (take n l) = true.
Proof.
  revert n. induction l as [|a l IH]; intros [|n] H; try reflexivity.
  simpl in *. apply andb_true_iff in H as [Ha Hl]. rewrite Ha, IH by exact Hl. reflexivity.
Qed.

(** A sub-parser whose first argument takes a string reads the strings after
    a leading separator as it reads them without it. *)
Lemma separator_dropped (xs : list argument) (args : list string) (ns : Namespace) :
  forallb positional args = true ->
  match_arguments_partial (map arg_nargs xs) (replicate (length args) pA) <> [] ->
  parse_known_args_from who arg_nargs (fun a => Some (dest a)) (store who) ns xs
    ("--" :: args)
  = parse_known_args_from who arg_nargs (fun a => Some (dest a)) (store who) ns xs args.
Proof.
  intros Hargs Hcounts. unfold parse_known_args_from.
  cbn [classify]. rewrite bool_decide_eq_true_2 by reflexivity.
  rewrite classify_positional by exact Hargs.
  rewrite !interleave_no_option
    by (try apply no_option_among_positionals; cbn; apply no_option_among_positionals).
  cbn [obind]. unfold consume_positionals.
  cbn [positionals namespace unrecognized extras map fst snd].
  rewrite map_pA_replicate, map_fst_pA.
  destruct (match_arguments_partial (map arg_nargs xs) (replicate (length args) pA))
    as [|c cs] eqn:Hm; [congruence|].
  unfold match_arguments_partial in *. rewrite (match_partial_from_dash _ _ _ _ _ Hm).
  destruct xs as [|x xs]; [discriminate Hm|].
  cbn [take_actions take drop].
  rewrite store_after_separator by (apply forallb_take, Hargs).
  destruct (store who x (take c args) ns) as [[ns1 u1]| | |]; cbn [obind]; try reflexivity.
  destruct (take_actions (store who) xs cs (drop c args) ns1 ([] ++ u1)) as [[ns2 u2]| | |];
    cbn [obind]; reflexivity.
Qed.

End separator.

Lemma first_argument_takes_a_string (xs : list argument) (n : nat) :
  declared_shape xs = true -> xs <> [] -> (0 < n)%nat ->
  match_arguments_partial (map arg_nargs xs) (replicate n pA) <> [].
Proof.
  intros Hshape Hxs Hn. unfold declared_shape in Hshape.
  apply orb_true_iff in Hshape as [Hnone | Hplus].
  - assert (Hmap : map arg_nargs xs = replicate (length xs) nargs_None).
    { clear -Hnone. induction xs as [|x xs IH]; simpl in *; [reflexivity|].
      apply andb_true_iff in Hnone as [Hx Hxs]. rewrite IH by assumption.
      unfold is_nargs_None in Hx. destruct (arg_nargs x); try discriminate. reflexivity. }
    unfold match_arguments_partial. rewrite Hmap, length_replicate.
    rewrite match_partial_None by lia.
    destruct xs; [congruence|]. destruct n; [lia|]. discriminate.
  - destruct xs as [|x [|y xs]]; try discriminate.
    unfold is_nargs_plus in Hplus. destruct (arg_nargs x) eqn:Hx; try discriminate.
    simpl map. rewrite Hx, match_partial_plus. destruct n; [lia | discriminate].
Qed.
(** ** The parser of [get_prompt_parser]: what a resolved line holds *)

Lemma initial_dests_lookup (xs : list argument) :
  forall (m : Namespace) (k : string),
    foldl (fun ns a => match ns !! dest a with
                       | None => <[dest a := VNone]> ns
                       | Some _ => ns
                       end) m xs !! k
    = match m !! k with
      | Some v => Some v
      | None => if bool_decide (k ∈ map dest xs) then Some VNone else None
      end.
Proof.
  induction xs as [|x xs IH]; intros m k; simpl.
  - destruct (m !! k); reflexivity.
  - rewrite IH. destruct (decide (k = dest x)) as [-> | Hk].
    + rewrite (bool_decide_eq_true_2 (dest x ∈ dest x :: map dest xs))
        by apply list_elem_of_here.
      destruct (m !! dest x) as [v|] eqn:Hm; [rewrite Hm; reflexivity|].
      rewrite lookup_insert_eq. reflexivity.
    + assert (Hm : (match m !! dest x with
                    | Some _ => m
                    | None => <[dest x := VNone]> m
                    end) !! k = m !! k).
      { destruct (m !! dest x); [reflexivity|]. apply lookup_insert_ne. congruence. }
      rewrite Hm. destruct (m !! k); [reflexivity|].
      destruct (decide (k ∈ map dest xs)) as [Hin | Hin].
      * rewrite !bool_decide_eq_true_2; [reflexivity | | exact Hin].
        apply list_elem_of_further, Hin.
      * rewrite !bool_decide_eq_false_2; [reflexivity | | exact Hin].
        intros H. apply elem_of_cons in H as [H | H]; [congruence | contradiction].
Qed.

(** The namespace that a sub-parser starts from: [func], and [None] for each
    argument. *)
Lemma initial_namespace_lookup (p : subparser) (k : string) :
  "func" ∉ map dest (arguments p) ->
  initial_namespace p !! k
  = if bool_decide (k = "func") then Some (VFunction (func p))
    else if bool_decide (k ∈ map dest (arguments p)) then Some VNone else None.
Proof.
  intros Hfunc. unfold initial_namespace.
  pose proof (initial_dests_lookup (arguments p) ∅ "func") as Hf.
  rewrite lookup_empty, bool_decide_eq_false_2 in Hf by exact Hfunc.
  rewrite Hf. case_bool_decide as Hk.
  - subst k. apply lookup_insert_eq.
  - rewrite lookup_insert_ne by congruence.
    rewrite initial_dests_lookup, lookup_empty. reflexivity.
Qed.

Section resolved.

Variable isChecksumAddress : string -> bool.
Variable safe_operator : string -> list value -> result value.

Local Abbreviation registry := (subparsers isChecksumAddress).
Local Abbreviation resolve := (prompt_parser_parse_args isChecksumAddress).
Local Abbreviation is_option := (fun t : string * pattern_char => is_pO (snd t)).

Ltac by_cases_on_registry H :=
  unfold subparsers in H;
  repeat (apply elem_of_cons in H as [-> | H]);
  [ .. | apply elem_of_nil in H; destruct H ].

(** The arguments that [get_prompt_parser] declares: their names are distinct
    within a parser and differ from [func], their values are single strings
    or one or more strings, and their types are [str],
    [check_ethereum_address] and [int]. *)
Lemma declared_arguments (p : subparser) :
  p ∈ registry ->
  NoDup (map dest (arguments p))
  /\ ("func" ∉ map dest (arguments p))
  /\ Forall (fun x => arg_nargs x <> nargs_PARSER) (arguments p)
  /\ Forall (fun x => exists d n, x = arg_str d n
                                  \/ x = arg_address isChecksumAddress d n
                                  \/ x = arg_int d n) (arguments p).
Proof.
  intros H. by_cases_on_registry H; cbn [arguments].
  all: split; [apply (bool_decide_unpack _); vm_compute; exact I|].
  all: split; [apply (bool_decide_unpack _); vm_compute; exact I|].
  all: split; [repeat constructor; discriminate|].
  all: repeat constructor; eexists _, _; eauto.
Qed.

Lemma separator_is_not_registered : "--" ∉ map name registry.
Proof. apply (bool_decide_unpack _). vm_compute. exact I. Qed.

(** The values of the declared types: none is [None], and a value of an
    address argument holds only strings that the validator accepts. *)
Lemma converted_declared (x : argument) (v : value) :
  (exists d n, x = arg_str d n \/ x = arg_address isChecksumAddress d n \/ x = arg_int d n) ->
  converted x v ->
  v <> VNone
  /\ (type_name x = "check_ethereum_address" ->
      forall s, s ∈ strings_of v -> isChecksumAddress s = true).
Proof.
  intros (d & n & Hx) Hv.
  assert (Hone : forall s w, type x s = Returned w ->
            w <> VNone /\ forall l, w <> VList l).
  { intros s w Hw. destruct Hx as [-> | [-> | ->]]; cbn in Hw.
    - injection Hw as <-. split; [|intros l]; discriminate.
    - unfold check_ethereum_address_, check_ethereum_address in Hw.
      destruct (isChecksumAddress s); cbn in Hw; [|discriminate].
      injection Hw as <-. split; [|intros l]; discriminate.
    - unfold int_ in Hw. destruct (builtins.int s); [|discriminate].
      injection Hw as <-. split; [|intros l]; discriminate. }
  assert (Hvalid : type_name x = "check_ethereum_address" ->
            forall s w, type x s = Returned w -> forall a, a ∈ strings_of w ->
                        isChecksumAddress a = true).
  { intros Hty s w Hw a Ha. destruct Hx as [-> | [-> | ->]]; try discriminate Hty.
    cbn in Hw. unfold check_ethereum_address_, check_ethereum_address in Hw.
    destruct (isChecksumAddress s) eqn:Hs; cbn in Hw; [|discriminate].
    injection Hw as <-. cbn in Ha. apply list_elem_of_singleton in Ha. congruence. }
  destruct Hv as [[s Hs] | (strs & vs & -> & Hall)].
  - split; [apply (Hone s v Hs)|]. intros Hty a Ha. exact (Hvalid Hty s v Hs a Ha).
  - split; [discriminate|]. intros Hty a Ha. cbn [strings_of] in Ha.
    induction Hall as [|s w strs vs Hw Hall IH]; [apply elem_of_nil in Ha; destruct Ha|].
    apply elem_of_app in Ha as [Ha | Ha]; [exact (Hvalid Hty s w Hw a Ha) | exact (IH Ha)].
Qed.

(** What a resolved line is: the empty line, or the name of a registered
    parser followed by strings, none of them read as an option string, for
    each of whose arguments the namespace holds a converted value, next to
    [func]. *)
Lemma resolve_Ok (args : list string) (ns : Namespace) :
  resolve args = Ok ns ->
  (args = [] /\ ns = ∅)
  \/ exists p rest,
       args = name p :: rest /\ p ∈ registry
       /\ positional (name p) = true
       /\ name_parser_map registry (name p) = Some p
       /\ existsb is_option (classify rest) = false
       /\ ns !! "func" = Some (VFunction (func p))
       /\ (forall x, x ∈ arguments p -> exists v, ns !! dest x = Some v /\ converted x v)
       /\ (forall k, is_Some (ns !! k) -> k = "func" \/ k ∈ map dest (arguments p)).
Proof.
  intros H. apply (parse_args_Ok _ separator_is_not_registered) in H
    as [H | (p & rest & -> & Hp & Hpos & Hmap & Hsub)]; [left; exact H | right].
  exists p, rest. destruct (declared_arguments p Hp) as (Hnd & Hfunc & Hnargs & _).
  unfold subparser_parse_known_args in Hsub.
  split; [reflexivity|]. split; [exact Hp|]. split; [exact Hpos|].
  split; [exact Hmap|]. split.
  { destruct (existsb is_option (classify rest)) eqn:Hopt; [|reflexivity].
    destruct (option_string_gives_extras _ _ _ _ _ _ _ _ _ Hnargs Hopt Hsub eq_refl). }
  apply sub_parse_stored in Hsub as [Hstored Hother]; [|exact Hnd].
  split; [|split; [exact Hstored|]].
  - rewrite Hother by exact Hfunc. rewrite initial_namespace_lookup by exact Hfunc.
    reflexivity.
  - intros k [v Hk]. destruct (decide (k ∈ map dest (arguments p))) as [Hin | Hin];
      [right; exact Hin | left].
    rewrite Hother, initial_namespace_lookup in Hk by assumption.
    case_bool_decide; [assumption|].
    rewrite bool_decide_eq_false_2 in Hk by exact Hin. discriminate.
Qed.

(** A registered command that a resolved line names is the parser that
    resolved it. *)
Lemma resolve_Ok_named (p : subparser) (rest : list string) (ns : Namespace) :
  p ∈ registry ->
  resolve (name p :: rest) = Ok ns ->
  existsb is_option (classify rest) = false
  /\ ns !! "func" = Some (VFunction (func p))
  /\ (forall x, x ∈ arguments p -> exists v, ns !! dest x = Some v /\ converted x v)
  /\ (forall k, is_Some (ns !! k) -> k = "func" \/ k ∈ map dest (arguments p)).
Proof.
  intros Hp H. apply resolve_Ok in H as [[H _] | (q & rest' & Heq & Hq & _ & Hmap & H)];
    [discriminate|].
  injection Heq as Hname <-.
  destruct (registered isChecksumAddress p Hp) as (_ & Hmap' & _).
  rewrite Hname, Hmap in Hmap'. injection Hmap' as ->. exact H.
Qed.

(** X3: every line that is resolved is empty or begins with a registered command
    name; the namespace of the empty line is empty, that of any other line holds
    under [func] the handler of its command. *)
Theorem resolved_line_names_a_command (args : list string) (ns : Namespace) :
  prompt_parser_parse_args isChecksumAddress args = Ok ns ->
  (args = [] /\ ns = ∅)
  \/ exists p rest,
       args = name p :: rest /\ p ∈ subparsers isChecksumAddress
       /\ ns !! "func" = Some (VFunction (func p)).
Proof.
  intros H. apply resolve_Ok in H as [H | (p & rest & Ha & Hp & _ & _ & _ & Hf & _)];
    [left; exact H | right; eauto].
Qed.

(** X4: when a line is resolved, every argument that its command declares holds
    a value that the type callable of the argument returned, or the list of such
    values; no argument is left at [None], and the namespace has no attribute
    besides [func] and the declared arguments. *)
Theorem resolved_arguments_are_converted (p : subparser) (rest : list string)
    (ns : Namespace) :
  p ∈ registry ->
  resolve (name p :: rest) = Ok ns ->
  (forall x, x ∈ arguments p ->
             exists v, ns !! dest x = Some v /\ converted x v /\ v <> VNone)
  /\ (forall k, is_Some (ns !! k) -> k = "func" \/ k ∈ map dest (arguments p)).
Proof.
  intros Hp H. destruct (resolve_Ok_named p rest ns Hp H) as (_ & _ & Hstored & Hkeys).
  split; [|exact Hkeys]. intros x Hx. destruct (Hstored x Hx) as (v & Hv & Hc).
  exists v. split; [exact Hv|]. split; [exact Hc|].
  destruct (declared_arguments p Hp) as (_ & _ & _ & Hdecl).
  rewrite Forall_forall in Hdecl. apply (converted_declared x v (Hdecl x Hx) Hc).
Qed.

Lemma address_arguments (p : subparser) (x : argument) :
  p ∈ registry -> x ∈ arguments p ->
  dest x ∈ ["address"; "addresses"; "token_address"] ->
  type_name x = "check_ethereum_address".
Proof.
  intros Hp Hx Hd. by_cases_on_registry Hp; cbn [arguments] in Hx;
    repeat (apply elem_of_cons in Hx as [-> | Hx]);
    try (apply elem_of_nil in Hx; destruct Hx);
    try reflexivity;
    exfalso; cbn [dest arg_str arg_int] in Hd;
    repeat (apply elem_of_cons in Hd as [Hd | Hd]; [discriminate Hd|]);
    apply elem_of_nil in Hd; exact Hd.
Qed.

(** X5: whatever the line, a namespace that the parser returns holds no string
    that fails address validation under [address], [addresses] or
    [token_address]. *)
Theorem resolved_addresses_are_valid (args : list string) (ns : Namespace)
    (d : string) (v : value) (s : string) :
  resolve args = Ok ns ->
  d ∈ ["address"; "addresses"; "token_address"] ->
  ns !! d = Some v ->
  s ∈ strings_of v ->
  isChecksumAddress s = true.
Proof.
  intros H Hd Hv Hs.
  apply resolve_Ok in H as [[_ ->] | (p & rest & _ & Hp & _ & _ & _ & _ & Hstored & Hkeys)].
  { rewrite lookup_empty in Hv. discriminate. }
  destruct (Hkeys d (mk_is_Some _ _ Hv)) as [-> | Hin].
  { repeat (apply elem_of_cons in Hd as [Hd | Hd]; [discriminate Hd|]).
    apply elem_of_nil in Hd. destruct Hd. }
  apply elem_of_list_map in Hin as (x & -> & Hx).
  destruct (Hstored x Hx) as (v' & Hv' & Hc). rewrite Hv in Hv'. injection Hv' as <-.
  destruct (declared_arguments p Hp) as (_ & _ & _ & Hdecl).
  rewrite Forall_forall in Hdecl.
  apply (converted_declared x v (Hdecl x Hx) Hc); [|exact Hs].
  apply (address_arguments p x Hp Hx Hd).
Qed.

Lemma classify_option (args : list string) (i : nat) (t : string) :
  args !! i = Some t ->
  "--" ∉ take (S i) args ->
  is_Some (parse_optional t) ->
  existsb is_option (classify args) = true.
Proof.
  revert i. induction args as [|a args IH]; intros i Hi Hsep Ht; [discriminate|].
  cbn [take] in Hsep. apply not_elem_of_cons in Hsep as [Ha Hsep].
  cbn [classify]. rewrite bool_decide_eq_false_2 by congruence.
  destruct i as [|i].
  - injection Hi as ->. destruct Ht as [o ->]. reflexivity.
  - cbn [existsb]. rewrite (IH i Hi Hsep Ht). apply orb_true_r.
Qed.

(** X7: a line in which a token before any [--] is read as an option string is
    never resolved: such a line ends in the help text or in a usage error. *)
Theorem option_string_never_resolves (args : list string) (i : nat) (t : string)
    (ns : Namespace) :
  args !! i = Some t ->
  "--" ∉ take (S i) args ->
  is_Some (parse_optional t) ->
  resolve args <> Ok ns.
Proof.
  intros Hi Hsep Ht H. pose proof (classify_option args i t Hi Hsep Ht) as Hopt.
  apply resolve_Ok in H as [[-> _] | (p & rest & -> & _ & Hpos & _ & Hno & _)];
    [discriminate|].
  unfold positional in Hpos. apply andb_true_iff in Hpos as [Hd Ho].
  apply negb_true_iff in Hd. cbn [classify] in Hopt. rewrite Hd in Hopt.
  destruct (parse_optional (name p)); [discriminate|].
  cbn in Hopt. congruence.
Qed.

(** *** No uncaught exception *)

Lemma get_value_no_crash (who : option string) (x : argument) (s : string) (e : exn) :
  (exists d n, x = arg_str d n \/ x = arg_address isChecksumAddress d n \/ x = arg_int d n) ->
  get_value who x s <> Crash e.
Proof.
  intros (d & n & [-> | [-> | ->]]); unfold get_value; cbn.
  - discriminate.
  - unfold check_ethereum_address_, check_ethereum_address.
    destruct (isChecksumAddress s); discriminate.
  - unfold int_. destruct (builtins.int s); discriminate.
Qed.

Lemma store_no_crash (who : option string) (x : argument) (strs : list string)
    (ns : Namespace) (e : exn) :
  (exists d n, x = arg_str d n \/ x = arg_address isChecksumAddress d n \/ x = arg_int d n) ->
  store who x strs ns <> Crash e.
Proof.
  intros Hx. unfold store.
  assert (Hlist : forall l, get_value_list who x l <> Crash e).
  { induction l as [|s l IH]; simpl; [discriminate|].
    destruct (get_value who x s) as [v|p m|p|e1] eqn:Hv; simpl; try discriminate.
    - destruct (get_value_list who x l) as [vs|p m|p|e1]; simpl; try discriminate.
      intros H. apply IH. exact H.
    - intros H. injection H as ->. exact (get_value_no_crash who x s e Hx Hv). }
  assert (Hvalues : get_values who x strs <> Crash e).
  { unfold get_values.
    assert (Hl : forall l, obind (get_value_list who x l) (fun vs => Ok (VList vs))
                           <> Crash e).
    { intros l. destruct (get_value_list who x l) as [vs|p m|p|e1] eqn:Hvs; simpl;
        try discriminate.
      intros H. injection H as ->. exact (Hlist l Hvs). }
    destruct (arg_nargs x); try apply Hl.
    destruct (remove_dashdash strs) as [|s [|s' l]]; try apply Hl.
    apply get_value_no_crash, Hx. }
  destruct (get_values who x strs) as [v|p m|p|e1]; simpl; try discriminate.
  intros H. injection H as ->. apply Hvalues. reflexivity.
Qed.

(** X9: parsing raises no exception of its own: whatever the line, it returns a
    namespace, or ends in a usage error or in the help text. *)
Theorem parse_args_raises_nothing (args : list string) (e : exn) :
  resolve args <> Crash e.
Proof.
  unfold prompt_parser_parse_args, parse_args, parse_known_args.
  destruct (parse_known_args_from None (fun _ : unit => nargs_PARSER) (fun _ => None)
              (subparsers_action registry) ∅ [tt] args) as [[ns argv]|p m|p|e1] eqn:H;
    simpl; try discriminate.
  - destruct argv; discriminate.
  - exfalso. revert H.
    apply (parse_known_args_from_no_crash None _ _ _ (fun _ => True));
      [|repeat constructor].
    intros [] strs ns e2 _ Hstrs. unfold subparsers_action.
    destruct strs as [|parser_name arg_strings]; [congruence|].
    destruct (name_parser_map registry parser_name) as [p|] eqn:Hp; [|discriminate].
    apply name_parser_map_Some in Hp as [Hp _].
    destruct (subparser_parse_known_args p arg_strings) as [[sub argv]|q m|q|e3] eqn:Hsub;
      simpl; try discriminate.
    exfalso. revert Hsub. unfold subparser_parse_known_args.
    destruct (declared_arguments p Hp) as (_ & _ & _ & Hdecl).
    apply (parse_known_args_from_no_crash _ _ _ _ _ (fun x s n e4 Hx _ =>
             store_no_crash (Some (name p)) x s n e4 Hx) _ _ _ _ Hdecl).
Qed.

(** *** What the handler of a resolved line does *)

Lemma getattrs_stored (ns : Namespace) (attrs : list string) (vs : list value) :
  Forall2 (fun d v => ns !! d = Some v) attrs vs -> getattrs ns attrs = ret vs.
Proof.
  induction 1 as [|d v attrs vs Hd Hall IH]; [reflexivity|].
  cbn [getattrs]. unfold getattr. rewrite Hd, IH. reflexivity.
Qed.

Lemma body_stored (method : string) (attrs : list string) (ns : Namespace)
    (vs : list value) :
  Forall2 (fun d v => ns !! d = Some v) attrs vs ->
  body safe_operator method attrs ns
  = ([OperatorCall method vs],
     match safe_operator method vs with
     | Returned _ => Returned VNone
     | Raised e => Raised e
     end).
Proof.
  intros H. unfold body. rewrite (getattrs_stored _ _ _ H).
  unfold operator_call. cbn. destruct (safe_operator method vs); reflexivity.
Qed.

(** Every handler reads the attributes that its own parser declares, in the
    order of their declaration. *)
Lemma handler_reads_declared (p : subparser) :
  p ∈ registry ->
  exists method, forall ns,
    function safe_operator (func p) ns
    = body safe_operator method (map dest (arguments p)) ns.
Proof.
  intros H. by_cases_on_registry H; cbn [func function arguments map dest arg_str
    arg_address arg_int]; eexists; intros ns; reflexivity.
Qed.

(** X6: when a line is resolved, the function of its command performs exactly
    one call of the operator, on the values of the declared arguments in the
    order of their declaration, and finds every attribute that it reads; when
    the operator completes, the decorated function emits nothing else and
    returns [None]. *)
Theorem resolved_line_calls_operator_once (p : subparser) (rest : list string)
    (ns : Namespace) :
  p ∈ registry ->
  resolve (name p :: rest) = Ok ns ->
  exists method vs,
    Forall2 (fun x v => ns !! dest x = Some v /\ converted x v) (arguments p) vs
    /\ function safe_operator (func p) ns
       = ([OperatorCall method vs],
          match safe_operator method vs with
          | Returned _ => Returned VNone
          | Raised e => Raised e
          end)
    /\ (forall w, safe_operator method vs = Returned w ->
                  decorated safe_operator (func p) ns
                  = ([OperatorCall method vs], Returned VNone)).
Proof.
  intros Hp H. destruct (resolve_Ok_named p rest ns Hp H) as (_ & _ & Hstored & _).
  destruct (handler_reads_declared p Hp) as [method Hm]. exists method.
  assert (Hvs : exists vs, Forall2 (fun x v => ns !! dest x = Some v /\ converted x v)
                             (arguments p) vs).
  { clear -Hstored. induction (arguments p) as [|x xs IH]; [exists []; constructor|].
    destruct (Hstored x (list_elem_of_here _ _)) as (v & Hv).
    destruct IH as [vs Hvs]; [intros y Hy; apply Hstored, list_elem_of_further, Hy|].
    exists (v :: vs). constructor; assumption. }
  destruct Hvs as [vs Hvs]. exists vs. split; [exact Hvs|].
  assert (Hbody : function safe_operator (func p) ns
                  = ([OperatorCall method vs],
                     match safe_operator method vs with
                     | Returned _ => Returned VNone
                     | Raised e => Raised e
                     end)).
  { rewrite Hm. apply body_stored.
    clear -Hvs. induction Hvs as [|x v xs vs [Hv _] Hall IH]; constructor; assumption. }
  split; [exact Hbody|].
  intros w Hw. unfold decorated. rewrite Hw in Hbody.
  apply (safe_exception_returned _ _ _ _ Hbody).
Qed.

(** *** The help flag *)

Lemma sub_parser_help (p : subparser) (t o : string) (rest : list string) :
  t <> "--" ->
  parse_optional t = Some (known_option o None) ->
  subparser_parse_known_args p (t :: rest) = Help (Some (name p)).
Proof.
  intros Ht Ho. unfold subparser_parse_known_args, parse_known_args_from.
  cbn [classify]. rewrite bool_decide_eq_false_2 by exact Ht. rewrite Ho.
  reflexivity.
Qed.

(** X8: the help flag, in any of its spellings, as the first token of a line or
    directly after a command name, makes the parser print the help of the
    top-level parser or of the command and exit, whatever follows: nothing is
    resolved. *)
Theorem help_flag_prints_help (p : subparser) (t : string) (rest : list string) :
  p ∈ registry ->
  t ∈ ["-h"; "--help"; "--h"; "--he"; "--hel"] ->
  resolve (t :: rest) = Help None
  /\ resolve (name p :: t :: rest) = Help (Some (name p)).
Proof.
  intros Hp Ht.
  assert (Hopt : t <> "--" /\ exists o, parse_optional t = Some (known_option o None)).
  { repeat (apply elem_of_cons in Ht as [-> | Ht]);
      [ .. | apply elem_of_nil in Ht; destruct Ht ];
      (split; [discriminate | eexists; reflexivity]). }
  destruct Hopt as [Hsep [o Ho]]. split.
  - unfold prompt_parser_parse_args, parse_args, parse_known_args, parse_known_args_from.
    cbn [classify]. rewrite bool_decide_eq_false_2 by exact Hsep. rewrite Ho.
    reflexivity.
  - destruct (registered isChecksumAddress p Hp) as (Hpos & Hmap & _).
    unfold prompt_parser_parse_args, parse_args.
    rewrite parse_known_args_positional_head by exact Hpos.
    unfold subparsers_action. rewrite Hmap.
    rewrite (sub_parser_help p t o rest Hsep Ho). reflexivity.
Qed.

(** *** Integers and lists of strings *)



Lemma get_value_list_str (who : option string) (d : string) (n : nargs_kind)
    (keys : list string) :
  get_value_list who (arg_str d n) keys = Ok (map VStr keys).
Proof. induction keys as [|k keys IH]; [reflexivity|]. cbn. rewrite IH. reflexivity. Qed.

Lemma get_value_list_address (who : option string) (d : string) (n : nargs_kind)
    (addresses : list string) :
  Forall (fun a => isChecksumAddress a = true) addresses ->
  get_value_list who (arg_address isChecksumAddress d n) addresses
  = Ok (map VStr addresses).
Proof.
  induction 1 as [|a addresses Ha Hall IH]; [reflexivity|].
  cbn [get_value_list]. unfold arg_address at 1. rewrite get_value_address, Ha.
  cbn [obind]. rewrite IH. reflexivity.
Qed.

(** X12: [load_cli_owners] takes one or more keys: every token after the command
    name is kept, as it is and in order. *)
Theorem keys_are_kept_in_order (keys : list string) :
  keys <> [] ->
  forallb positional keys = true ->
  resolve ("load_cli_owners" :: keys)
  = Ok (<["keys" := VList (map VStr keys)]> {["func" := VFunction load_cli_owners]}).
Proof.
  intros Hne Hkeys.
  rewrite (resolve_positionals isChecksumAddress
             (SubParser "load_cli_owners" [arg_str "keys" nargs_plus] load_cli_owners))
    by (try exact Hkeys; unfold subparsers;
        repeat first [apply list_elem_of_here | apply list_elem_of_further]).
  unfold parse_positionals. destruct keys as [|k keys]; [congruence|].
  cbn [assign arguments name arg_str arg_nargs dest].
  change (Argument "keys" str_ "str" nargs_plus) with (arg_str "keys" nargs_plus).
  rewrite get_value_list_str. reflexivity.
Qed.

(** X13: [unload_cli_owners] takes one or more addresses: when every token after
    the command name is a valid address, all of them are kept, in order. *)
Theorem addresses_are_kept_in_order (addresses : list string) :
  addresses <> [] ->
  forallb positional addresses = true ->
  Forall (fun a => isChecksumAddress a = true) addresses ->
  resolve ("unload_cli_owners" :: addresses)
  = Ok (<["addresses" := VList (map VStr addresses)]>
          {["func" := VFunction unload_cli_owners]}).
Proof.
  intros Hne Hpos Hvalid.
  rewrite (resolve_positionals isChecksumAddress
             (SubParser "unload_cli_owners"
                [arg_address isChecksumAddress "addresses" nargs_plus] unload_cli_owners))
    by (try exact Hpos; unfold subparsers;
        repeat first [apply list_elem_of_here | apply list_elem_of_further]).
  unfold parse_positionals. destruct addresses as [|a addresses]; [congruence|].
  cbn [assign arguments name arg_address arg_nargs dest].
  change (Argument "addresses" (check_ethereum_address_ isChecksumAddress)
            "check_ethereum_address" nargs_plus)
    with (arg_address isChecksumAddress "addresses" nargs_plus).
  rewrite get_value_list_address by exact Hvalid. reflexivity.
Qed.

(** X10: a separator directly after the name of a command that declares
    arguments is dropped: the line is resolved as the line without it. *)
Theorem separator_after_command_is_dropped (p : subparser) (args : list string) :
  p ∈ registry ->
  arguments p <> [] ->
  args <> [] ->
  forallb positional args = true ->
  resolve (name p :: "--" :: args) = resolve (name p :: args).
Proof.
  intros Hp Hxs Hargs Hpos.
  destruct (registered isChecksumAddress p Hp) as (Hname & Hmap & Hshape).
  unfold prompt_parser_parse_args, parse_args.
  rewrite !parse_known_args_positional_head by exact Hname.
  unfold subparsers_action. rewrite Hmap. unfold subparser_parse_known_args.
  rewrite separator_dropped; [reflexivity | exact Hpos|].
  apply first_argument_takes_a_string; [exact Hshape | exact Hxs|].
  destruct args; [congruence | simpl; lia].
Qed.

(** *** Too few and too many tokens *)

Lemma assign_too_few (who : option string) (xs : list argument) :
  forall (args : list string) (ns : Namespace),
    (length args < length xs)%nat ->
    (forall i x t, xs !! i = Some x -> args !! i = Some t ->
                   exists v, type x t = Returned v) ->
    assign who xs args ns
    = Error who (required_arguments (map dest (drop (length args) xs))).
Proof.
  induction xs as [|x xs IH]; intros args ns Hlen Hconv; [simpl in Hlen; lia|].
  destruct args as [|a args]; [reflexivity|].
  cbn [assign length drop]. simpl in Hlen.
  destruct (Hconv O x a eq_refl eq_refl) as [v Hv].
  assert (Hget : get_value who x a = Ok v) by (unfold get_value; rewrite Hv; reflexivity).
  assert (Hrest : obind (get_value who x a) (fun v => assign who xs args (<[dest x := v]> ns))
                  = Error who (required_arguments (map dest (drop (length args) xs)))).
  { rewrite Hget. cbn [obind]. apply IH; [lia|].
    intros i y t Hy Ht. apply (Hconv (S i) y t Hy Ht). }
  destruct (arg_nargs x); try exact Hrest.
  destruct xs; [simpl in Hlen; lia | exact Hrest].
Qed.

Lemma assign_too_many (who : option string) (xs : list argument) :
  forall (args : list string) (ns : Namespace),
    forallb is_nargs_None xs = true ->
    (length xs <= length args)%nat ->
    (forall i x t, xs !! i = Some x -> args !! i = Some t ->
                   exists v, type x t = Returned v) ->
    exists ns', assign who xs args ns = Ok (ns', drop (length xs) args).
Proof.
  induction xs as [|x xs IH]; intros args ns Hnone Hlen Hconv; [exists ns; reflexivity|].
  destruct args as [|a args]; [simpl in Hlen; lia|].
  simpl in Hnone. apply andb_true_iff in Hnone as [Hx Hxs].
  cbn [assign length drop]. simpl in Hlen.
  destruct (Hconv O x a eq_refl eq_refl) as [v Hv].
  assert (Hget : get_value who x a = Ok v) by (unfold get_value; rewrite Hv; reflexivity).
  unfold is_nargs_None in Hx. destruct (arg_nargs x); try discriminate Hx.
  rewrite Hget. cbn [obind]. apply IH; [exact Hxs | lia|].
  intros i y t Hy Ht. apply (Hconv (S i) y t Hy Ht).
Qed.

(** X14: with too few tokens, each of them accepted by the type of its argument,
    the command's parser ends in the usage error that names the arguments
    without a token, in the order of their declaration. *)
Theorem missing_arguments_are_named (p : subparser) (args : list string) :
  p ∈ registry ->
  forallb positional args = true ->
  (length args < length (arguments p))%nat ->
  (forall i x t, arguments p !! i = Some x -> args !! i = Some t ->
                 exists v, type x t = Returned v) ->
  resolve (name p :: args)
  = Error (Some (name p))
      (required_arguments (map dest (drop (length args) (arguments p)))).
Proof.
  intros Hp Hargs Hlen Hconv.
  rewrite (resolve_positionals isChecksumAddress p args Hp Hargs).
  unfold parse_positionals. rewrite assign_too_few by assumption. reflexivity.
Qed.

(** X15: with more tokens than a command with single-string arguments declares,
    the first of them accepted by the types of the arguments, the top-level
    parser ends in the usage error that lists the surplus tokens. *)
Theorem surplus_tokens_are_unrecognized (p : subparser) (args : list string) :
  p ∈ registry ->
  forallb positional args = true ->
  forallb is_nargs_None (arguments p) = true ->
  (length (arguments p) < length args)%nat ->
  (forall i x t, arguments p !! i = Some x -> args !! i = Some t ->
                 exists v, type x t = Returned v) ->
  resolve (name p :: args)
  = Error None (unrecognized_arguments (drop (length (arguments p)) args)).
Proof.
  intros Hp Hargs Hnone Hlen Hconv.
  rewrite (resolve_positionals isChecksumAddress p args Hp Hargs).
  unfold parse_positionals.
  destruct (assign_too_many (Some (name p)) (arguments p) args (initial_namespace p)
              Hnone ltac:(lia) Hconv) as [ns' ->].
  cbn [obind].
  destruct (drop (length (arguments p)) args) eqn:Hd; [|reflexivity].
  apply (f_equal length) in Hd. rewrite length_drop in Hd. simpl in Hd. lia.
Qed.

(** *** A second separator *)

(** X16: after the separator every [--] is an argument string, and the one that
    an argument of a single string is matched against is removed from its
    strings: the argument is left with the empty list. *)
Theorem second_separator_leaves_an_empty_list (a : string) :
  positional a = true ->
  isChecksumAddress a = true ->
  resolve ["send_ether"; a; "--"; "--"]
  = Ok (<["value" := VList []]>
          (<["address" := VStr a]> {["func" := VFunction send_ether]}))
  /\ function safe_operator send_ether
       (<["value" := VList []]>
          (<["address" := VStr a]> {["func" := VFunction send_ether]}))
     = ([OperatorCall "send_ether" [VStr a; VList []]],
        match safe_operator "send_ether" [VStr a; VList []] with
        | Returned _ => Returned VNone
        | Raised e => Raised e
        end).
Proof.
  intros Ha Hvalid. split.
  - pose proof Ha as Hpos. unfold positional in Ha.
    apply andb_true_iff in Ha as [Hd Ho]. apply negb_true_iff in Hd.
    destruct (parse_optional a) eqn:Hopt; [discriminate|]. clear Ho.
    assert (Hp : SubParser "send_ether"
                   [arg_address isChecksumAddress "address" nargs_None;
                    arg_int "value" nargs_None] send_ether ∈ registry)
      by (unfold subparsers;
          repeat first [apply list_elem_of_here | apply list_elem_of_further]).
    destruct (registered isChecksumAddress _ Hp) as (Hname & Hmap & _).
    unfold prompt_parser_parse_args, parse_args.
    rewrite (parse_known_args_positional_head registry "send_ether") by reflexivity.
    unfold subparsers_action. cbn [name] in Hmap. rewrite Hmap.
    unfold subparser_parse_known_args, parse_known_args_from, arg_address, arg_int.
    cbn [name arguments].
    cbn [classify]. rewrite Hd, Hopt.
    rewrite bool_decide_eq_true_2 by reflexivity.
    cbn [map length interleave existsb snd is_pO orb negb obind].
    unfold consume_positionals.
    cbn [positionals namespace unrecognized extras map fst snd arg_nargs].
    change (match_arguments_partial [nargs_None; nargs_None] [pA; pDash; pA])
      with [2%nat; 1%nat].
    cbn [take_actions take drop]. unfold store at 1, get_values at 1.
    cbn [arg_nargs remove_dashdash]. rewrite Hd.
    rewrite bool_decide_eq_true_2 by reflexivity.
    rewrite get_value_address, Hvalid. cbn [obind dest].
    reflexivity.
  - unfold function, body. cbn [getattrs]. unfold getattr.
    rewrite lookup_insert_ne by discriminate. rewrite lookup_insert_eq.
    cbn. rewrite lookup_insert_eq. cbn.
    destruct (safe_operator "send_ether" [VStr a; VList []]); reflexivity.
Qed.

(** *** The first token that is rejected *)

Lemma get_value_Returned (who : option string) (x : argument) (s : string) (v : value) :
  type x s = Returned v -> get_value who x s = Ok v.
Proof. intros H. unfold get_value. rewrite H. reflexivity. Qed.

Lemma get_value_list_first_failure (who w : option string) (x : argument)
    (msg : error_message) (args : list string) :
  forall (i : nat) (t : string),
    args !! i = Some t ->
    (forall j s, (j < i)%nat -> args !! j = Some s -> exists v, type x s = Returned v) ->
    get_value who x t = Error w msg ->
    get_value_list who x args = Error w msg.
Proof.
  induction args as [|a args IH]; intros i t Hi Hbefore Ht; [discriminate|].
  cbn [get_value_list]. destruct i as [|i].
  - injection Hi as ->. rewrite Ht. reflexivity.
  - destruct (Hbefore O a ltac:(lia) eq_refl) as [v Hv].
    rewrite (get_value_Returned who x a v Hv). cbn [obind].
    rewrite (IH i t Hi); [reflexivity | | exact Ht].
    intros j s Hj Hs. apply (Hbefore (S j) s); [lia | exact Hs].
Qed.

Lemma assign_first_failure (who w : option string) (msg : error_message)
    (xs : list argument) :
  forallb is_nargs_None xs = true ->
  forall (args : list string) (ns : Namespace) (i : nat) (t : string) (x : argument),
    args !! i = Some t ->
    xs !! i = Some x ->
    (forall j s y, (j < i)%nat -> args !! j = Some s -> xs !! j = Some y ->
                   exists v, type y s = Returned v) ->
    get_value who x t = Error w msg ->
    assign who xs args ns = Error w msg.
Proof.
  induction xs as [|x0 xs IH]; intros Hnone args ns i t x Hi Hx Hbefore Ht; [discriminate|].
  simpl in Hnone. apply andb_true_iff in Hnone as [Hx0 Hxs].
  destruct args as [|a args]; [discriminate|].
  cbn [assign]. unfold is_nargs_None in Hx0.
  destruct (arg_nargs x0) eqn:Hn; try discriminate Hx0.
  destruct i as [|i].
  - injection Hi as ->. injection Hx as ->. rewrite Ht. reflexivity.
  - destruct (Hbefore O a x0 ltac:(lia) eq_refl eq_refl) as [v Hv].
    rewrite (get_value_Returned who x0 a v Hv). cbn [obind].
    apply (IH Hxs args _ i t x Hi Hx); [|exact Ht].
    intros j s y Hj Hs Hy. apply (Hbefore (S j) s y); [lia | exact Hs | exact Hy].
Qed.

(** X17: the usage error of a line of positional tokens is that of the first token
    that the type of its argument rejects: the tokens after it and the number
    of tokens play no part. *)
Theorem first_rejected_token_is_reported (p : subparser) (args : list string)
    (i : nat) (t : string) (x : argument) (w : option string) (msg : error_message) :
  p ∈ registry ->
  forallb positional args = true ->
  args !! i = Some t ->
  slot (arguments p) i = Some x ->
  (forall j s y, (j < i)%nat -> args !! j = Some s -> slot (arguments p) j = Some y ->
                 exists v, type y s = Returned v) ->
  get_value (Some (name p)) x t = Error w msg ->
  resolve (name p :: args) = Error w msg.
Proof.
  intros Hp Hargs Hi Hslot Hbefore Ht.
  rewrite (resolve_positionals isChecksumAddress p args Hp Hargs).
  destruct (registered isChecksumAddress p Hp) as (_ & _ & Hshape).
  unfold parse_positionals. unfold declared_shape in Hshape.
  apply orb_true_iff in Hshape as [Hnone | Hplus].
  - assert (Hnoslot : forall j y, slot (arguments p) j = Some y ->
                                  arguments p !! j = Some y).
    { intros j y. unfold slot. destruct (arguments p !! j); [auto|].
      destruct (last (arguments p)) as [z|] eqn:Hlast; [|discriminate].
      assert (Hz : is_nargs_plus z = false).
      { apply last_Some in Hlast as [l' Hl']. rewrite Hl', forallb_app in Hnone.
        apply andb_true_iff in Hnone as [_ Hz]. simpl in Hz.
        unfold is_nargs_None in Hz. unfold is_nargs_plus.
        destruct (arg_nargs z); try discriminate; reflexivity. }
      rewrite Hz. discriminate. }
    rewrite (assign_first_failure _ w msg _ Hnone args _ i t x Hi (Hnoslot _ _ Hslot));
      [reflexivity | | exact Ht].
    intros j s y Hj Hs Hy. apply (Hbefore j s y Hj Hs).
    unfold slot. rewrite Hy. reflexivity.
  - destruct (arguments p) as [|z [|z' l]] eqn:Hxs; try discriminate.
    assert (Hz : forall j, slot [z] j = Some z).
    { intros [|j]; [reflexivity|]. unfold slot. cbn. rewrite Hplus. reflexivity. }
    rewrite Hz in Hslot. injection Hslot as ->.
    destruct args as [|a args]; [discriminate|]. cbn [assign].
    unfold is_nargs_plus in Hplus. destruct (arg_nargs x) eqn:Hn; try discriminate.
    rewrite (get_value_list_first_failure _ w x msg (a :: args) i t Hi); [reflexivity | | exact Ht].
    intros j s Hj Hs. apply (Hbefore j s x Hj Hs). apply Hz.
Qed.

End resolved.

(** *** A resolved command whose operator call fails *)

(** ** Instances of the further properties *)

Lemma resolved_line_names_a_command_witness :
  prompt_parser_parse_args is_checksum ["change_threshold"; "3"]
  = Ok (<["threshold" := VInt 3]> {["func" := VFunction change_threshold]})
  /\ ((["change_threshold"; "3"] = []
       /\ <["threshold" := VInt 3]> {["func" := VFunction change_threshold]}
          = (∅ : Namespace))
      \/ exists p rest,
           ["change_threshold"; "3"] = name p :: rest /\ p ∈ subparsers is_checksum
           /\ (<["threshold" := VInt 3]> {["func" := VFunction change_threshold]}
                 : Namespace) !! "func"
              = Some (VFunction (func p))).
Proof.
  split; [vm_compute; reflexivity|].
  apply (resolved_line_names_a_command is_checksum ["change_threshold"; "3"]).
  vm_compute. reflexivity.
Defined.

Lemma resolved_arguments_are_converted_witness :
  SubParser "change_threshold" [arg_int "threshold" nargs_None] change_threshold
    ∈ subparsers is_checksum
  /\ prompt_parser_parse_args is_checksum ["change_threshold"; "3"]
     = Ok (<["threshold" := VInt 3]> {["func" := VFunction change_threshold]})
  /\ (forall x, x ∈ [arg_int "threshold" nargs_None] ->
        exists v,
          (<["threshold" := VInt 3]> {["func" := VFunction change_threshold]} : Namespace)
            !! dest x = Some v
          /\ converted x v /\ v <> VNone)
  /\ (forall k,
        is_Some ((<["threshold" := VInt 3]> {["func" := VFunction change_threshold]}
                    : Namespace) !! k) ->
        k = "func" \/ k ∈ map dest [arg_int "threshold" nargs_None]).
Proof.
  split; [in_registry|]. split; [vm_compute; reflexivity|].
  apply (resolved_arguments_are_converted is_checksum
           (SubParser "change_threshold" [arg_int "threshold" nargs_None] change_threshold)
           ["3"]).
  - in_registry.
  - vm_compute. reflexivity.
Defined.

Lemma resolved_addresses_are_valid_witness :
  prompt_parser_parse_args is_checksum ["add_owner"; owner]
  = Ok (<["address" := VStr owner]> {["func" := VFunction add_owner]})
  /\ "address" ∈ ["address"; "addresses"; "token_address"]
  /\ (<["address" := VStr owner]> {["func" := VFunction add_owner]} : Namespace)
       !! "address" = Some (VStr owner)
  /\ owner ∈ strings_of (VStr owner)
  /\ is_checksum owner = true.
Proof.
  split; [vm_compute; reflexivity|]. split; [apply list_elem_of_here|].
  split; [reflexivity|]. split; [apply list_elem_of_here|].
  apply (resolved_addresses_are_valid is_checksum ["add_owner"; owner]
           (<["address" := VStr owner]> {["func" := VFunction add_owner]})
           "address" (VStr owner) owner).
  - vm_compute. reflexivity.
  - apply list_elem_of_here.
  - reflexivity.
  - apply list_elem_of_here.
Defined.

Lemma option_string_never_resolves_witness :
  ["get_nonce"; "-x"] !! 1%nat = Some "-x"
  /\ ("--" ∉ take 2 ["get_nonce"; "-x"])
  /\ is_Some (parse_optional "-x")
  /\ prompt_parser_parse_args is_checksum ["get_nonce"; "-x"] <> Ok ∅.
Proof.
  split; [reflexivity|]. split; [compute_done|]. split; [eexists; reflexivity|].
  apply (option_string_never_resolves is_checksum ["get_nonce"; "-x"] 1 "-x" ∅).
  - reflexivity.
  - compute_done.
  - eexists. reflexivity.
Defined.

Lemma help_flag_prints_help_witness :
  SubParser "send_ether"
    [arg_address is_checksum "address" nargs_None; arg_int "value" nargs_None] send_ether
    ∈ subparsers is_checksum
  /\ "--he" ∈ ["-h"; "--help"; "--h"; "--he"; "--hel"]
  /\ prompt_parser_parse_args is_checksum ["--he"; "notanaddress"] = Help None
  /\ prompt_parser_parse_args is_checksum ["send_ether"; "--he"; "notanaddress"]
     = Help (Some "send_ether").
Proof.
  split; [in_registry|]. split; [compute_done|].
  apply (help_flag_prints_help is_checksum
           (SubParser "send_ether"
              [arg_address is_checksum "address" nargs_None; arg_int "value" nargs_None]
              send_ether) "--he" ["notanaddress"]).
  - in_registry.
  - compute_done.
Defined.

Lemma resolved_line_calls_operator_once_witness :
  SubParser "send_ether"
    [arg_address is_checksum "address" nargs_None; arg_int "value" nargs_None] send_ether
    ∈ subparsers is_checksum
  /\ prompt_parser_parse_args is_checksum ["send_ether"; owner; "7"]
     = Ok (<["value" := VInt 7]>
             (<["address" := VStr owner]> {["func" := VFunction send_ether]}))
  /\ exists method vs,
       Forall2 (fun x v =>
                  (<["value" := VInt 7]>
                     (<["address" := VStr owner]> {["func" := VFunction send_ether]})
                     : Namespace) !! dest x = Some v
                  /\ converted x v)
         [arg_address is_checksum "address" nargs_None; arg_int "value" nargs_None] vs
       /\ function silent_operator send_ether
            (<["value" := VInt 7]>
               (<["address" := VStr owner]> {["func" := VFunction send_ether]}))
          = ([OperatorCall method vs],
             match silent_operator method vs with
             | Returned _ => Returned VNone
             | Raised e => Raised e
             end)
       /\ (forall w, silent_operator method vs = Returned w ->
             decorated silent_operator send_ether
               (<["value" := VInt 7]>
                  (<["address" := VStr owner]> {["func" := VFunction send_ether]}))
             = ([OperatorCall method vs], Returned VNone)).
Proof.
  split; [in_registry|]. split; [vm_compute; reflexivity|].
  apply (resolved_line_calls_operator_once is_checksum silent_operator
           (SubParser "send_ether"
              [arg_address is_checksum "address" nargs_None; arg_int "value" nargs_None]
              send_ether) [owner; "7"]).
  - in_registry.
  - vm_compute. reflexivity.
Defined.


Lemma keys_are_kept_in_order_witness :
  ["key1"; "key2"] <> []
  /\ forallb positional ["key1"; "key2"] = true
  /\ prompt_parser_parse_args is_checksum ["load_cli_owners"; "key1"; "key2"]
     = Ok (<["keys" := VList (map VStr ["key1"; "key2"])]>
             {["func" := VFunction load_cli_owners]}).
Proof.
  split; [discriminate|]. split; [reflexivity|].
  apply (keys_are_kept_in_order is_checksum ["key1"; "key2"]).
  - discriminate.
  - reflexivity.
Defined.

Lemma addresses_are_kept_in_order_witness :
  [owner] <> []
  /\ forallb positional [owner] = true
  /\ Forall (fun a => is_checksum a = true) [owner]
  /\ prompt_parser_parse_args is_checksum ["unload_cli_owners"; owner]
     = Ok (<["addresses" := VList (map VStr [owner])]>
             {["func" := VFunction unload_cli_owners]}).
Proof.
  assert (Hvalid : Forall (fun a => is_checksum a = true) [owner])
    by (repeat constructor; vm_compute; reflexivity).
  split; [discriminate|]. split; [reflexivity|]. split; [exact Hvalid|].
  apply (addresses_are_kept_in_order is_checksum [owner]).
  - discriminate.
  - reflexivity.
  - exact Hvalid.
Defined.

Lemma separator_after_command_is_dropped_witness :
  SubParser "change_threshold" [arg_int "threshold" nargs_None] change_threshold
    ∈ subparsers is_checksum
  /\ [arg_int "threshold" nargs_None] <> []
  /\ ["3"] <> []
  /\ forallb positional ["3"] = true
  /\ prompt_parser_parse_args is_checksum ["change_threshold"; "--"; "3"]
     = prompt_parser_parse_args is_checksum ["change_threshold"; "3"].
Proof.
  split; [in_registry|]. split; [discriminate|]. split; [discriminate|].
  split; [reflexivity|].
  apply (separator_after_command_is_dropped is_checksum
           (SubParser "change_threshold" [arg_int "threshold" nargs_None] change_threshold)
           ["3"]).
  - in_registry.
  - discriminate.
  - discriminate.
  - reflexivity.
Defined.

Lemma missing_arguments_are_named_witness :
  SubParser "send_erc20"
    [arg_address is_checksum "address" nargs_None;
     arg_address is_checksum "token_address" nargs_None;
     arg_int "value" nargs_None] send_erc20
    ∈ subparsers is_checksum
  /\ forallb positional [owner] = true
  /\ (length [owner] < 3)%nat
  /\ (forall i x t,
        [arg_address is_checksum "address" nargs_None;
         arg_address is_checksum "token_address" nargs_None;
         arg_int "value" nargs_None] !! i = Some x ->
        [owner] !! i = Some t -> exists v, type x t = Returned v)
  /\ prompt_parser_parse_args is_checksum ["send_erc20"; owner]
     = Error (Some "send_erc20") (required_arguments ["token_address"; "value"]).
Proof.
  assert (Hconv : forall i x t,
            [arg_address is_checksum "address" nargs_None;
             arg_address is_checksum "token_address" nargs_None;
             arg_int "value" nargs_None] !! i = Some x ->
            [owner] !! i = Some t -> exists v, type x t = Returned v).
  { intros i x t Hx Ht. destruct i as [|i]; [|discriminate Ht].
    injection Hx as <-. injection Ht as <-. eexists. vm_compute. reflexivity. }
  split; [in_registry|]. split; [reflexivity|]. split; [simpl; lia|]. split; [exact Hconv|].
  apply (missing_arguments_are_named is_checksum
           (SubParser "send_erc20"
              [arg_address is_checksum "address" nargs_None;
               arg_address is_checksum "token_address" nargs_None;
               arg_int "value" nargs_None] send_erc20) [owner]).
  - in_registry.
  - reflexivity.
  - simpl. lia.
  - exact Hconv.
Defined.

Lemma surplus_tokens_are_unrecognized_witness :
  SubParser "update" [] update_version ∈ subparsers is_checksum
  /\ forallb positional ["now"; "please"] = true
  /\ forallb is_nargs_None [] = true
  /\ (0 < length ["now"; "please"])%nat
  /\ (forall i x t, ([] : list argument) !! i = Some x -> ["now"; "please"] !! i = Some t ->
                    exists v, type x t = Returned v)
  /\ prompt_parser_parse_args is_checksum ["update"; "now"; "please"]
     = Error None (unrecognized_arguments ["now"; "please"]).
Proof.
  split; [in_registry|]. split; [reflexivity|]. split; [reflexivity|].
  split; [simpl; lia|]. split; [intros i x t Hx; discriminate Hx|].
  apply (surplus_tokens_are_unrecognized is_checksum (SubParser "update" [] update_version)
           ["now"; "please"]).
  - in_registry.
  - reflexivity.
  - reflexivity.
  - simpl. lia.
  - intros i x t Hx. discriminate Hx.
Defined.

Lemma clause_order_is_irrelevant_witness :
  rotate 1 except_clauses ≡ₚ except_clauses
  /\ select_clause (rotate 1 except_clauses) (Exn NotEnoughSignatures [AInt 2])
     = select_clause except_clauses (Exn NotEnoughSignatures [AInt 2]).
Proof.
  assert (H : rotate 1 except_clauses ≡ₚ except_clauses).
  { unfold except_clauses, rotate. simpl. symmetry. apply Permutation_cons_append. }
  split; [exact H|].
  apply (clause_order_is_irrelevant (rotate 1 except_clauses)
           (Exn NotEnoughSignatures [AInt 2])).
  exact H.
Defined.

Lemma second_separator_leaves_an_empty_list_witness :
  positional owner = true
  /\ is_checksum owner = true
  /\ prompt_parser_parse_args is_checksum ["send_ether"; owner; "--"; "--"]
     = Ok (<["value" := VList []]>
             (<["address" := VStr owner]> {["func" := VFunction send_ether]}))
  /\ function silent_operator send_ether
       (<["value" := VList []]>
          (<["address" := VStr owner]> {["func" := VFunction send_ether]}))
     = ([OperatorCall "send_ether" [VStr owner; VList []]],
        match silent_operator "send_ether" [VStr owner; VList []] with
        | Returned _ => Returned VNone
        | Raised e => Raised e
        end).
Proof.
  split; [reflexivity|]. split; [vm_compute; reflexivity|].
  apply (second_separator_leaves_an_empty_list is_checksum silent_operator owner).
  - reflexivity.
  - vm_compute. reflexivity.
Defined.

Lemma first_rejected_token_is_reported_witness :
  SubParser "send_ether"
    [arg_address is_checksum "address" nargs_None; arg_int "value" nargs_None] send_ether
    ∈ subparsers is_checksum
  /\ forallb positional [owner; "much"; "more"] = true
  /\ [owner; "much"; "more"] !! 1%nat = Some "much"
  /\ slot [arg_address is_checksum "address" nargs_None; arg_int "value" nargs_None] 1
     = Some (arg_int "value" nargs_None)
  /\ (forall j s y, (j < 1)%nat -> [owner; "much"; "more"] !! j = Some s ->
        slot [arg_address is_checksum "address" nargs_None; arg_int "value" nargs_None] j
        = Some y ->
        exists v, type y s = Returned v)
  /\ get_value (Some "send_ether") (arg_int "value" nargs_None) "much"
     = Error (Some "send_ether") (invalid_value "value" "int" "much")
  /\ prompt_parser_parse_args is_checksum ["send_ether"; owner; "much"; "more"]
     = Error (Some "send_ether") (invalid_value "value" "int" "much").
Proof.
  assert (Hbefore : forall j s y, (j < 1)%nat -> [owner; "much"; "more"] !! j = Some s ->
            slot [arg_address is_checksum "address" nargs_None; arg_int "value" nargs_None] j
            = Some y ->
            exists v, type y s = Returned v).
  { intros j s y Hj Hs Hy. destruct j as [|j]; [|lia].
    injection Hs as <-. injection Hy as <-. eexists. vm_compute. reflexivity. }
  split; [in_registry|]. do 3 (split; [reflexivity|]). split; [exact Hbefore|].
  split; [reflexivity|].
  apply (first_rejected_token_is_reported is_checksum
           (SubParser "send_ether"
              [arg_address is_checksum "address" nargs_None; arg_int "value" nargs_None]
              send_ether)
           [owner; "much"; "more"] 1 "much" (arg_int "value" nargs_None)).
  - in_registry.
  - reflexivity.
  - reflexivity.
  - reflexivity.
  - exact Hbefore.
  - reflexivity.
Defined.

